(** * LocklessQueue and TestCounter: a shallow embedding

    Sources:
    - services/surfaceflinger/LocklessQueue.h  (class LocklessQueue<T>)
    - services/vibratorservice/test/test_utils.h  (class TestCounter)

    The queue is modelled over an explicit store of heap-allocated [Entry]
    objects.  An [Entry*] is [option addr] ([None] is [nullptr]); every member
    function is written in a small state-and-error monad whose primitives are
    the atomic loads, stores, exchanges and the [new]/[delete] of the source.
    Dereferencing a pointer that names no live entry is undefined behaviour
    and is reported as [Undefined]; loops take fuel and report [OutOfFuel]. *)

From stdpp Require Import gmap list.

(** ** Results of running a member function *)

Inductive outcome (A : Type) : Type :=
  | Done (a : A)
  | Undefined
  | OutOfFuel.
Arguments Done {A} a.
Arguments Undefined {A}.
Arguments OutOfFuel {A}.

(** ** TestCounter (test_utils.h)

    The counter is used here from one thread: every [lock_guard] finds the
    mutex free and [notify_all] finds no waiter, so the state is the
    [int32_t mCount].  Overflow of a signed [int32_t] is undefined in C++;
    the model takes the two's-complement result, which in any case lies in
    the range of [int32_t]. *)

Module Counter.

Definition int32_min : Z := - 2 ^ 31.
Definition int32_max : Z := 2 ^ 31 - 1.

(** The value of an [int32_t] after an arithmetic result [z]. *)
Definition wrap32 (z : Z) : Z := ((z + 2 ^ 31) `mod` 2 ^ 32 - 2 ^ 31)%Z.

Record TestCounter : Type := mkCounter { mCount : Z }.

(** TestCounter(int32_t init = 0) : mMutex(), mCondVar(), mCount(init) {} *)
Definition new (init : Z) : TestCounter := {| mCount := init |}.
Definition new_default : TestCounter := new 0.

(** int32_t get() *)
Definition get (c : TestCounter) : Z := mCount c.

(** void increment(): mCount += 1 *)
Definition increment (c : TestCounter) : TestCounter :=
  {| mCount := wrap32 (mCount c + 1) |}.

(** *** TestFactory::createCountingCallback

    [int32_t] variables live in a memory; a callback is what a call of the
    returned [std::function<void()>] does to that memory. *)

Definition callback : Type := gmap positive Z → outcome (gmap positive Z).

(** static std::function<void()> createCountingCallback(int32_t* counter) {
        return [counter]() { *counter += 1; };
    } *)
Definition createCountingCallback (counter : option positive) : callback :=
  λ mem, match counter with
         | None => Undefined
         | Some a => match mem !! a with
                     | None => Undefined
                     | Some z => Done (<[a := wrap32 (z + 1)]> mem)
                     end
         end.

(** Calling callbacks one after the other. *)
Fixpoint call_all (cbs : list callback) (mem : gmap positive Z)
    : outcome (gmap positive Z) :=
  match cbs with
  | [] => Done mem
  | cb :: cbs' =>
      match cb mem with
      | Done mem' => call_all cbs' mem'
      | Undefined => Undefined
      | OutOfFuel => OutOfFuel
      end
  end.

(** *** TestCounter shared by threads

    Threads interleave at the operations on the mutex and at the load and
    the store of [mCount += 1].  [std::mutex] has one holder at a time;
    [condition_variable::wait_until] releases the mutex and blocks in one
    step, and a blocked thread may wake up at any time (spuriously or
    notified) or by its timeout, which may fire at any time: the model has
    no clock. *)

Inductive tid : Type :=
  | Inc (i : nat)
  | Waiter.

(** Where a thread stands inside [increment]. *)
Inductive inc_pc : Type :=
  | IncLock
  | IncLoad
  | IncStore (tmp : Z)
  | IncUnlock
  | IncNotify.

(** A thread that still has [calls] calls of [increment] to complete. *)
Record incrementer : Type := mkInc { ipc : inc_pc; calls : nat }.

(** Where the waiting thread stands inside [tryWaitUntilCountIsAtLeast]:
      std::unique_lock<std::mutex> lock(mMutex);
      mCondVar.wait_for(lock, timeout, [&] { return mCount >= count; });
    with [wait_for(lock, t, pred)] being
      while (!pred()) if (wait_until(lock, abs) == cv_status::timeout) return pred();
      return true; *)
Inductive wait_pc : Type :=
  | WLock
  | WPred
  | WBlocked
  | WRelock (timed_out : bool)
  | WLastPred
  | WUnlock (result : bool)
  | WReturned (result : bool).

Record system : Type := mkSystem {
  counter : TestCounter;
  holder : option tid;
  incs : list incrementer;
  waiter : wait_pc
}.

Definition set_inc (i : nat) (t : incrementer) (s : system) : system :=
  mkSystem (counter s) (holder s) (<[i := t]> (incs s)) (waiter s).

(** One step of thread [i] inside [increment]. *)
Definition inc_step (i : nat) (t : incrementer) (s : system) : outcome system :=
  match ipc t with
  | IncLock =>
      match calls t with
      | O => Done s
      | S _ =>
          match holder s with
          | None => Done (mkSystem (counter s) (Some (Inc i))
                                   (<[i := mkInc IncLoad (calls t)]> (incs s)) (waiter s))
          | Some _ => Done s
          end
      end
  | IncLoad => Done (set_inc i (mkInc (IncStore (mCount (counter s))) (calls t)) s)
  | IncStore tmp =>
      Done (mkSystem (mkCounter (wrap32 (tmp + 1))) (holder s)
                     (<[i := mkInc IncUnlock (calls t)]> (incs s)) (waiter s))
  | IncUnlock =>
      match holder s with
      | Some (Inc j) =>
          if decide (j = i)
          then Done (mkSystem (counter s) None
                              (<[i := mkInc IncNotify (calls t)]> (incs s)) (waiter s))
          else Undefined
      | _ => Undefined
      end
  | IncNotify => Done (set_inc i (mkInc IncLock (pred (calls t))) s)
  end.

(** One step of the waiting thread; [count] is the argument of
    [tryWaitUntilCountIsAtLeast]. *)
Definition wait_step (count : Z) (s : system) : outcome system :=
  match waiter s with
  | WLock =>
      match holder s with
      | None => Done (mkSystem (counter s) (Some Waiter) (incs s) WPred)
      | Some _ => Done s
      end
  | WPred =>
      match holder s with
      | Some Waiter =>
          if decide (count ≤ mCount (counter s))%Z
          then Done (mkSystem (counter s) (holder s) (incs s) (WUnlock true))
          else Done (mkSystem (counter s) None (incs s) WBlocked)
      | _ => Undefined
      end
  | WBlocked => Done (mkSystem (counter s) (holder s) (incs s) (WRelock false))
  | WRelock timed_out =>
      match holder s with
      | None => Done (mkSystem (counter s) (Some Waiter) (incs s)
                               (if timed_out then WLastPred else WPred))
      | Some _ => Done s
      end
  | WLastPred =>
      Done (mkSystem (counter s) (holder s) (incs s)
                     (WUnlock (bool_decide (count ≤ mCount (counter s))%Z)))
  | WUnlock result =>
      match holder s with
      | Some Waiter => Done (mkSystem (counter s) None (incs s) (WReturned result))
      | _ => Undefined
      end
  | WReturned _ => Done s
  end.

(** The timeout of the waiting thread fires. *)
Definition timeout_step (s : system) : system :=
  match waiter s with
  | WBlocked => mkSystem (counter s) (holder s) (incs s) (WRelock true)
  | _ => s
  end.

Inductive event : Type :=
  | Run (t : tid)
  | Timeout.

Definition sys_step (count : Z) (e : event) (s : system) : outcome system :=
  match e with
  | Run (Inc i) =>
      match incs s !! i with
      | Some t => inc_step i t s
      | None => Done s
      end
  | Run Waiter => wait_step count s
  | Timeout => Done (timeout_step s)
  end.

Fixpoint sys_exec (count : Z) (es : list event) (s : system) : outcome system :=
  match es with
  | [] => Done s
  | e :: es' =>
      match sys_step count e s with
      | Done s' => sys_exec count es' s'
      | Undefined => Undefined
      | OutOfFuel => OutOfFuel
      end
  end.

(** Thread [i] is to call [increment] [ks !! i] times. *)
Definition sys_initial (init : Z) (ks : list nat) : system :=
  mkSystem (new init) None (mkInc IncLock <$> ks) WLock.

Definition is_timeout (e : event) : bool :=
  match e with Timeout => true | Run _ => false end.

(** The stores of [mCount] that a thread still has to do. *)
Definition pending (t : incrementer) : nat :=
  match ipc t with
  | IncUnlock | IncNotify => pred (calls t)
  | _ => calls t
  end.

(** What holds of the shared counter at every moment. *)
Definition sys_inv (final count : Z) (fired : bool) (s : system) : Prop :=
  (mCount (counter s) + Z.of_nat (sum_list_with pending (incs s)) = final)%Z ∧
  (∀ i t, incs s !! i = Some t →
     match ipc t with
     | IncLock => True
     | IncLoad => holder s = Some (Inc i) ∧ 0 < calls t
     | IncStore tmp =>
         holder s = Some (Inc i) ∧ 0 < calls t ∧ tmp = mCount (counter s)
     | IncUnlock => holder s = Some (Inc i) ∧ 0 < calls t
     | IncNotify => 0 < calls t
     end) ∧
  match waiter s with
  | WLock | WBlocked | WRelock false => True
  | WPred => holder s = Some Waiter
  | WRelock true => fired = true
  | WLastPred => holder s = Some Waiter ∧ fired = true
  | WUnlock result =>
      holder s = Some Waiter ∧
      (if result then (count ≤ mCount (counter s))%Z else fired = true)
  | WReturned result =>
      if result then (count ≤ mCount (counter s))%Z else fired = true
  end.

End Counter.

Module Queue.

Abbreviation addr := positive.

(** [Entry*]: [None] is [nullptr]. *)
Abbreviation ptr := (option addr).

Section LocklessQueue.

Context {T : Type}.

(** class Entry { T mValue; std::atomic<Entry*> mNext; } *)
Record Entry : Type := mkEntry { mValue : T; mNext : ptr }.

(** The two atomic heads of the queue together with the store of the
    entries that are currently allocated. *)
Record LocklessQueue : Type := mkQueue {
  entries : gmap addr Entry;
  mPush : ptr;
  mPop : ptr
}.

(** std::atomic<Entry*> mPush = nullptr; std::atomic<Entry*> mPop = nullptr; *)
Definition empty_queue : LocklessQueue :=
  {| entries := ∅; mPush := None; mPop := None |}.

(** ** The monad of member functions *)

Definition M (A : Type) : Type := LocklessQueue → outcome (A * LocklessQueue).

Definition ret {A} (a : A) : M A := λ q, Done (a, q).

Definition bind {A B} (m : M A) (k : A → M B) : M B :=
  λ q, match m q with
       | Done (a, q') => k a q'
       | Undefined => Undefined
       | OutOfFuel => OutOfFuel
       end.

Definition out_of_fuel {A} : M A := λ _, OutOfFuel.

Notation "x <- m ;; k" := (bind m (λ x, k))
  (at level 100, m at next level, right associativity, only parsing).
Notation "m ;;; k" := (bind m (λ _, k))
  (at level 100, right associativity, only parsing).

(** ** Primitives *)

(** One allocator: the least address that is not live. *)
Definition fresh_alloc (h : gmap addr Entry) : addr := fresh (dom h).

(** The allocator behind [new]: it may hand out any address that is not
    live, in particular one that an earlier [delete] released. *)
Variable alloc : gmap addr Entry → addr.
Hypothesis alloc_fresh : ∀ h, h !! alloc h = None.

(** mPush.load() *)
Definition load_mPush : M ptr := λ q, Done (mPush q, q).

(** mPop.load() *)
Definition load_mPop : M ptr := λ q, Done (mPop q, q).

(** mPop.store(p) *)
Definition store_mPop (p : ptr) : M unit :=
  λ q, Done (tt, {| entries := entries q; mPush := mPush q; mPop := p |}).

(** mPush.exchange(p) *)
Definition exchange_mPush (p : ptr) : M ptr :=
  λ q, Done (mPush q, {| entries := entries q; mPush := p; mPop := mPop q |}).

(** mPush.compare_exchange_weak(expected, desired).  The result is the
    success flag and the new content of [expected].  The weak form may fail
    although the comparison holds; [spurious] says whether this call does. *)
Definition compare_exchange_weak (spurious : bool) (expected desired : ptr)
    : M (bool * ptr) :=
  λ q, if decide (mPush q = expected) then
         if spurious then Done ((false, mPush q), q)
         else Done ((true, expected),
                    {| entries := entries q; mPush := desired; mPop := mPop q |})
       else Done ((false, mPush q), q).

(** new Entry(std::move(value)).  [new] never returns null; the
    constructor leaves [mNext] null. *)
Definition new_Entry (value : T) : M ptr :=
  λ q, let a := alloc (entries q) in
       Done (Some a, {| entries := <[a := mkEntry value None]> (entries q);
                        mPush := mPush q; mPop := mPop q |}).

(** The entry that [e] points to; [e] null or dangling is undefined. *)
Definition deref (e : ptr) : M (addr * Entry) :=
  λ q, match e with
       | Some a => match entries q !! a with
                   | Some en => Done ((a, en), q)
                   | None => Undefined
                   end
       | None => Undefined
       end.

(** e->mNext (a load) *)
Definition load_mNext (e : ptr) : M ptr :=
  r <- deref e ;;
  ret (mNext r.2).

(** e->mNext = p *)
Definition store_mNext (e : ptr) (p : ptr) : M unit :=
  r <- deref e ;;
  λ q, Done (tt, {| entries := <[r.1 := mkEntry (mValue r.2) p]> (entries q);
                    mPush := mPush q; mPop := mPop q |}).

(** std::move(e->mValue) *)
Definition move_mValue (e : ptr) : M T :=
  r <- deref e ;;
  ret (mValue r.2).

(** delete e; deleting [nullptr] does nothing. *)
Definition delete_Entry (e : ptr) : M unit :=
  match e with
  | None => ret tt
  | Some _ =>
      r <- deref e ;;
      λ q, Done (tt, {| entries := delete r.1 (entries q);
                        mPush := mPush q; mPop := mPop q |})
  end.

(** ** Member functions *)

(** bool isEmpty() { return (mPush.load() == nullptr) && (mPop.load() == nullptr); } *)
Definition isEmpty : M bool :=
  a <- load_mPush ;;
  match a with
  | None => b <- load_mPop ;;
            ret (match b with None => true | Some _ => false end)
  | Some _ => ret false
  end.

(** The do-while of [push]: one round assigns [entry->mNext] and attempts
    the compare-exchange; a failed attempt has refreshed [previousHead]. *)
Fixpoint push_loop (fuel : nat) (spurious : list bool) (entry : ptr)
    (previousHead : ptr) : M unit :=
  match fuel with
  | O => out_of_fuel
  | S fuel' =>
      store_mNext entry previousHead ;;;
      r <- compare_exchange_weak (hd false spurious) previousHead entry ;;
      if r.1 then ret tt
      else push_loop fuel' (tl spurious) entry r.2
  end.

(** void push(T value) *)
Definition push (fuel : nat) (spurious : list bool) (value : T) : M unit :=
  entry <- new_Entry value ;;
  previousHead <- load_mPush ;;
  push_loop fuel spurious entry previousHead.

(** The while loop of [pop] that reverses the grabbed list.  The result is
    the final [grabbedList], the final [popped], and the number of times
    the loop body ran. *)
Fixpoint reverse_loop (fuel : nat) (grabbedList : ptr) (popped : ptr)
    (iterations : nat) : M (ptr * ptr * nat) :=
  match fuel with
  | O => out_of_fuel
  | S fuel' =>
      c <- load_mNext grabbedList ;;
      match c with
      | None => ret (grabbedList, popped, iterations)
      | Some _ =>
          next <- load_mNext grabbedList ;;
          store_mNext grabbedList popped ;;;
          reverse_loop fuel' next grabbedList (S iterations)
      end
  end.

(** std::optional<T> pop(), returning also the number of iterations of the
    reversal loop. *)
Definition pop_counting (fuel : nat) : M (option T * nat) :=
  popped <- load_mPop ;;
  match popped with
  | Some _ =>
      next <- load_mNext popped ;;
      store_mPop next ;;;
      value <- move_mValue popped ;;
      delete_Entry popped ;;;
      ret (Some value, 0)
  | None =>
      grabbedList <- exchange_mPush None ;;
      match grabbedList with
      | None => ret (None, 0)
      | Some _ =>
          r <- reverse_loop fuel grabbedList popped 0 ;;
          store_mPop r.1.2 ;;;
          value <- move_mValue r.1.1 ;;
          delete_Entry r.1.1 ;;;
          ret (Some value, r.2)
      end
  end.

(** std::optional<T> pop() *)
Definition pop (fuel : nat) : M (option T) :=
  r <- pop_counting fuel ;;
  ret r.1.

(** ** Linked lists in the store *)

(** [is_list h p l]: following [mNext] from [p] in [h] visits exactly the
    entries [l] (address and value, in link order) and then reaches
    [nullptr]. *)
Fixpoint is_list (h : gmap addr Entry) (p : ptr) (l : list (addr * T)) : Prop :=
  match l with
  | [] => p = None
  | (a, v) :: l' =>
      p = Some a ∧ ∃ next, h !! a = Some (mkEntry v next) ∧ is_list h next l'
  end.

(** [reaches h p a]: the entry at [a] is on the chain that starts at [p]. *)
Inductive reaches (h : gmap addr Entry) : ptr → addr → Prop :=
  | reaches_here a : reaches h (Some a) a
  | reaches_next a e b :
      h !! a = Some e → reaches h (mNext e) b → reaches h (Some a) b.

(** No allocated entry is on both the push list and the pop list. *)
Definition disjoint_lists (q : LocklessQueue) : Prop :=
  ∀ a, is_Some (entries q !! a) →
       ¬ (reaches (entries q) (mPush q) a ∧ reaches (entries q) (mPop q) a).

(** [repr q lpush lpop]: the push list and the pop list of [q] are the
    finite chains [lpush] (newest first) and [lpop] (oldest first), and no
    entry occurs twice. *)
Definition repr (q : LocklessQueue) (lpush lpop : list (addr * T)) : Prop :=
  is_list (entries q) (mPush q) lpush ∧
  is_list (entries q) (mPop q) lpop ∧
  NoDup (lpush.*1 ++ lpop.*1).

(** The abstraction: the pop list followed by the reversed push list. *)
Definition models (q : LocklessQueue) (s : list T) : Prop :=
  ∃ lpush lpop, repr q lpush lpop ∧ s = lpop.*2 ++ reverse lpush.*2.

(** ** Sequences of calls from one thread *)

Inductive call : Type :=
  | Push (spurious : list bool) (value : T)
  | Pop
  | IsEmpty.

Inductive result : Type :=
  | Pushed
  | Popped (r : option T)
  | Emptiness (b : bool).

Definition perform (fuel : nat) (c : call) : M result :=
  match c with
  | Push spurious value => push fuel spurious value ;;; ret Pushed
  | Pop => r <- pop fuel ;; ret (Popped r)
  | IsEmpty => b <- isEmpty ;; ret (Emptiness b)
  end.

Fixpoint run (fuel : nat) (cs : list call) : M (list result) :=
  match cs with
  | [] => ret []
  | c :: cs' =>
      r <- perform fuel c ;;
      rs <- run fuel cs' ;;
      ret (r :: rs)
  end.

(** The naive first-in-first-out queue of the specification: a list with
    the oldest value at its head. *)
Definition fifo_perform (c : call) (s : list T) : result * list T :=
  match c with
  | Push _ value => (Pushed, s ++ [value])
  | Pop => (Popped (head s), tail s)
  | IsEmpty => (Emptiness (match s with [] => true | _ :: _ => false end), s)
  end.

Fixpoint fifo_run (cs : list call) (s : list T) : list result * list T :=
  match cs with
  | [] => ([], s)
  | c :: cs' =>
      let '(r, s') := fifo_perform c s in
      let '(rs, s'') := fifo_run cs' s' in
      (r :: rs, s'')
  end.

(** Fuel that suffices for every loop of a sequence of calls. *)
Fixpoint fuel_bound (cs : list call) : nat :=
  match cs with
  | [] => 0
  | Push spurious _ :: cs' => S (length spurious) + fuel_bound cs'
  | _ :: cs' => fuel_bound cs'
  end.

(** ** Producer threads and one consumer thread

    Threads interleave at the atomic operations.  Every atomic in the
    source uses the default, sequentially consistent order (the weaker
    orders appear in comments only), and [mValue] is written before its
    entry is published and read after the entry was grabbed, so a state
    and a schedule of turns describe an execution. *)

(** Where a producer stands inside [push]. *)
Inductive push_pc : Type :=
  | AtCall
  | AtLoad (entry : ptr)
  | AtAssign (entry previousHead : ptr)
  | AtCas (entry previousHead : ptr).

(** A producer thread calls [push] on each value of [todo] in turn; the
    head of [todo] is the argument of the call in progress. *)
Record producer : Type := mkProducer { pc : push_pc; todo : list T }.

(** One atomic step of a producer. *)
Definition producer_step (spurious : bool) (p : producer) : M producer :=
  match pc p with
  | AtCall =>
      match todo p with
      | [] => ret p
      | value :: _ =>
          entry <- new_Entry value ;;
          ret (mkProducer (AtLoad entry) (todo p))
      end
  | AtLoad entry =>
      previousHead <- load_mPush ;;
      ret (mkProducer (AtAssign entry previousHead) (todo p))
  | AtAssign entry previousHead =>
      store_mNext entry previousHead ;;;
      ret (mkProducer (AtCas entry previousHead) (todo p))
  | AtCas entry previousHead =>
      r <- compare_exchange_weak spurious previousHead entry ;;
      ret (if r.1 then mkProducer AtCall (tail (todo p))
           else mkProducer (AtAssign entry r.2) (todo p))
  end.

(** Where the consumer stands inside [pop]. *)
Inductive consumer : Type :=
  | CCall
  | CNext (popped : ptr)
  | CStoreNext (popped next : ptr)
  | CExchange (popped : ptr)
  | CTest (grabbedList popped : ptr)
  | CReadNext (grabbedList popped : ptr)
  | CRelink (grabbedList popped next : ptr)
  | CStorePopped (grabbedList popped : ptr)
  | CMove (e : ptr)
  | CDelete (e : ptr) (value : T).

(** One atomic step of the consumer; a step that ends a call of [pop]
    with a value yields that value. *)
Definition consumer_step (c : consumer) : M (consumer * option T) :=
  match c with
  | CCall =>
      popped <- load_mPop ;;
      ret (match popped with
           | Some _ => CNext popped
           | None => CExchange popped
           end, None)
  | CNext popped =>
      next <- load_mNext popped ;;
      ret (CStoreNext popped next, None)
  | CStoreNext popped next =>
      store_mPop next ;;;
      ret (CMove popped, None)
  | CExchange popped =>
      grabbedList <- exchange_mPush None ;;
      ret (match grabbedList with
           | Some _ => CTest grabbedList popped
           | None => CCall
           end, None)
  | CTest grabbedList popped =>
      c <- load_mNext grabbedList ;;
      ret (match c with
           | Some _ => CReadNext grabbedList popped
           | None => CStorePopped grabbedList popped
           end, None)
  | CReadNext grabbedList popped =>
      next <- load_mNext grabbedList ;;
      ret (CRelink grabbedList popped next, None)
  | CRelink grabbedList popped next =>
      store_mNext grabbedList popped ;;;
      ret (CTest next grabbedList, None)
  | CStorePopped grabbedList popped =>
      store_mPop popped ;;;
      ret (CMove grabbedList, None)
  | CMove e =>
      value <- move_mValue e ;;
      ret (CDelete e value, None)
  | CDelete e value =>
      delete_Entry e ;;;
      ret (CCall, Some value)
  end.

(** The queue, the threads, and the values the consumer has seen. *)
Record config : Type := mkConfig {
  queue : LocklessQueue;
  producers : list producer;
  the_consumer : consumer;
  observed : list T
}.

Inductive turn : Type :=
  | Producer (i : nat) (spurious : bool)
  | Consumer.

(** The consumer calls [pop] again and again until it has seen [target]
    values. *)
Definition consumer_finished (target : nat) (c : config) : bool :=
  match the_consumer c with
  | CCall => bool_decide (target ≤ length (observed c))
  | _ => false
  end.

(** The thread whose turn it is takes one step; a thread that has
    finished, or that does not exist, leaves the state as it is. *)
Definition step (target : nat) (t : turn) (c : config) : outcome config :=
  match t with
  | Producer i spurious =>
      match producers c !! i with
      | None => Done c
      | Some p =>
          match producer_step spurious p (queue c) with
          | Done (p', q') =>
              Done (mkConfig q' (<[i := p']> (producers c)) (the_consumer c)
                             (observed c))
          | Undefined => Undefined
          | OutOfFuel => OutOfFuel
          end
      end
  | Consumer =>
      if consumer_finished target c then Done c
      else
        match consumer_step (the_consumer c) (queue c) with
        | Done ((k, r), q') =>
            Done (mkConfig q' (producers c) k
                           (observed c ++ match r with Some v => [v] | None => [] end))
        | Undefined => Undefined
        | OutOfFuel => OutOfFuel
        end
  end.

Fixpoint exec (target : nat) (schedule : list turn) (c : config) : outcome config :=
  match schedule with
  | [] => Done c
  | t :: schedule' =>
      match step target t c with
      | Done c' => exec target schedule' c'
      | Undefined => Undefined
      | OutOfFuel => OutOfFuel
      end
  end.

(** Producer [i] is to push the values [vals !! i]. *)
Definition initial (vals : list (list T)) : config :=
  mkConfig empty_queue (mkProducer AtCall <$> vals) CCall [].

(** *** The invariant of the interleaved executions *)

(** The entry a producer holds that is not yet on the push list. *)
Definition prod_owned (p : producer) : list addr :=
  match pc p with
  | AtCall => []
  | AtLoad entry | AtAssign entry _ | AtCas entry _ =>
      match entry with Some a => [a] | None => [] end
  end.

Definition producer_ok (h : gmap addr Entry) (p : producer) : Prop :=
  match pc p with
  | AtCall => True
  | AtLoad entry | AtAssign entry _ =>
      ∃ a v rest next,
        entry = Some a ∧ todo p = v :: rest ∧ h !! a = Some (mkEntry v next)
  | AtCas entry previousHead =>
      ∃ a v rest,
        entry = Some a ∧ todo p = v :: rest ∧
        h !! a = Some (mkEntry v previousHead)
  end.

(** [consumer_ok h po k own pend]: at [k] the consumer holds the entries
    [own], whose values are, oldest first, [pend]. *)
Inductive consumer_ok (h : gmap addr Entry) (po : ptr)
    : consumer → list addr → list T → Prop :=
  | ok_CCall lpop :
      is_list h po lpop →
      consumer_ok h po CCall lpop.*1 lpop.*2
  | ok_CNext p lpop :
      po = Some p →
      is_list h po lpop →
      consumer_ok h po (CNext (Some p)) lpop.*1 lpop.*2
  | ok_CStoreNext p v next rest :
      h !! p = Some (mkEntry v next) →
      is_list h next rest →
      consumer_ok h po (CStoreNext (Some p) next) (p :: rest.*1) (v :: rest.*2)
  | ok_CExchange :
      po = None →
      consumer_ok h po (CExchange None) [] []
  | ok_CTest g popped rem done :
      po = None →
      is_list h (Some g) rem →
      is_list h popped done →
      consumer_ok h po (CTest (Some g) popped)
                  (rem.*1 ++ done.*1) (reverse rem.*2 ++ done.*2)
  | ok_CReadNext g v n popped rem done :
      po = None →
      h !! g = Some (mkEntry v (Some n)) →
      is_list h (Some n) rem →
      is_list h popped done →
      consumer_ok h po (CReadNext (Some g) popped)
                  (g :: rem.*1 ++ done.*1) (reverse rem.*2 ++ v :: done.*2)
  | ok_CRelink g v n popped rem done :
      po = None →
      h !! g = Some (mkEntry v (Some n)) →
      is_list h (Some n) rem →
      is_list h popped done →
      consumer_ok h po (CRelink (Some g) popped (Some n))
                  (g :: rem.*1 ++ done.*1) (reverse rem.*2 ++ v :: done.*2)
  | ok_CStorePopped g v popped done :
      po = None →
      h !! g = Some (mkEntry v None) →
      is_list h popped done →
      consumer_ok h po (CStorePopped (Some g) popped) (g :: done.*1) (v :: done.*2)
  | ok_CMove e v next lpop :
      h !! e = Some (mkEntry v next) →
      is_list h po lpop →
      consumer_ok h po (CMove (Some e)) (e :: lpop.*1) (v :: lpop.*2)
  | ok_CDelete e v next lpop :
      h !! e = Some (mkEntry v next) →
      is_list h po lpop →
      consumer_ok h po (CDelete (Some e) v) (e :: lpop.*1) (v :: lpop.*2).

(** The store: the push list, what the consumer holds and what the
    producers hold are well formed and share no entry. *)
Definition shape_ok (q : LocklessQueue) (k : consumer) (ps : list producer)
    (lpush : list (addr * T)) (own : list addr) (pend : list T) : Prop :=
  is_list (entries q) (mPush q) lpush ∧
  consumer_ok (entries q) (mPop q) k own pend ∧
  Forall (producer_ok (entries q)) ps ∧
  NoDup (lpush.*1 ++ own ++ concat (prod_owned <$> ps)).

Context {T_eq_dec : EqDecision T}.

(** The values: [hist] lists the values of the entries linked so far, in
    the order of their successful compare-exchanges. *)
Definition values_ok (vals : list (list T)) (hist : list T)
    (ps : list producer) : Prop :=
  hist ++ concat (todo <$> ps) ≡ₚ concat vals ∧
  Forall2 (λ l p, filter (.∈ l) hist ++ todo p = l) vals ps.

Definition inv (vals : list (list T)) (c : config) : Prop :=
  ∃ lpush own pend,
    shape_ok (queue c) (the_consumer c) (producers c) lpush own pend ∧
    values_ok vals (observed c ++ pend ++ reverse lpush.*2) (producers c).

(** ** Accounting for the entries and for the work of [pop] *)

(** [accounts q lpush lpop]: the two chains represent [q] and every live
    entry is on one of them. *)
Definition accounts (q : LocklessQueue) (lpush lpop : list (addr * T)) : Prop :=
  repr q lpush lpop ∧
  ∀ a, is_Some (entries q !! a) ↔ a ∈ lpush.*1 ++ lpop.*1.

(** A call together with the number of iterations of the reversal loop it
    ran. *)
Definition perform_counting (fuel : nat) (c : call) : M (result * nat) :=
  match c with
  | Push spurious value => push fuel spurious value ;;; ret (Pushed, 0)
  | Pop => r <- pop_counting fuel ;; ret (Popped r.1, r.2)
  | IsEmpty => b <- isEmpty ;; ret (Emptiness b, 0)
  end.

(** A sequence of calls with the total number of loop iterations. *)
Fixpoint run_counting (fuel : nat) (cs : list call) : M (list result * nat) :=
  match cs with
  | [] => ret ([], 0)
  | c :: cs' =>
      r <- perform_counting fuel c ;;
      rs <- run_counting fuel cs' ;;
      ret (r.1 :: rs.1, r.2 + rs.2)
  end.

(** The number of [push] calls in a sequence. *)
Fixpoint pushes (cs : list call) : nat :=
  match cs with
  | [] => 0
  | Push _ _ :: cs' => S (pushes cs')
  | _ :: cs' => pushes cs'
  end.

(** ** More invariants of the interleaved executions *)



(** ** How far a call is from returning when its thread runs alone *)

(** The number of steps that a producer inside [push] still needs when no
    other thread moves and the compare-exchange does not fail spuriously:
    a stale [previousHead] costs one more round of the do-while. *)
Definition push_left (pu : ptr) (p : producer) : nat :=
  match pc p with
  | AtCall => 4
  | AtLoad _ => 3
  | AtAssign _ previousHead => if decide (previousHead = pu) then 2 else 4
  | AtCas _ previousHead => if decide (previousHead = pu) then 1 else 3
  end.

(** [pop_left h pu po k n]: when no other thread moves, the consumer at [k]
    returns a value from [pop] after [n] more steps. *)
Inductive pop_left (h : gmap addr Entry) (pu po : ptr) : consumer → nat → Prop :=
  | left_CCall_pop p en :
      po = Some p → h !! p = Some en →
      pop_left h pu po CCall 5
  | left_CCall_grab lpush :
      po = None → is_list h pu lpush → lpush ≠ [] →
      pop_left h pu po CCall (3 * length lpush + 3)
  | left_CNext p en :
      h !! p = Some en →
      pop_left h pu po (CNext (Some p)) 4
  | left_CStoreNext p en next :
      h !! p = Some en →
      pop_left h pu po (CStoreNext (Some p) next) 3
  | left_CExchange lpush :
      is_list h pu lpush → lpush ≠ [] →
      pop_left h pu po (CExchange None) (3 * length lpush + 2)
  | left_CTest g popped rem done :
      is_list h (Some g) rem → is_list h popped done →
      NoDup (rem.*1 ++ done.*1) →
      pop_left h pu po (CTest (Some g) popped) (3 * length rem + 1)
  | left_CReadNext g v n popped rem done :
      h !! g = Some (mkEntry v (Some n)) →
      is_list h (Some n) rem → is_list h popped done →
      NoDup (g :: rem.*1 ++ done.*1) →
      pop_left h pu po (CReadNext (Some g) popped) (3 * length rem + 3)
  | left_CRelink g v n popped rem done :
      h !! g = Some (mkEntry v (Some n)) →
      is_list h (Some n) rem → is_list h popped done →
      NoDup (g :: rem.*1 ++ done.*1) →
      pop_left h pu po (CRelink (Some g) popped (Some n)) (3 * length rem + 2)
  | left_CStorePopped g en popped :
      h !! g = Some en →
      pop_left h pu po (CStorePopped (Some g) popped) 3
  | left_CMove e en :
      h !! e = Some en →
      pop_left h pu po (CMove (Some e)) 2
  | left_CDelete e en v :
      h !! e = Some en →
      pop_left h pu po (CDelete (Some e) v) 1.

(** * Properties *)

Lemma is_list_functional h p l1 l2 :
  is_list h p l1 → is_list h p l2 → l1 = l2.
Proof.
  revert p l2. induction l1 as [|[a v] l1 IH]; intros p [|[b w] l2]; simpl.
  - done.
  - intros -> [? _]. done.
  - intros [-> _] ?. done.
  - intros [-> (n1 & H1 & L1)] [[= <-] (n2 & H2 & L2)].
    rewrite H1 in H2. injection H2 as <- <-.
    f_equal. eauto.
Qed.

Lemma is_list_suffix h p l1 l2 :
  is_list h p (l1 ++ l2) → ∃ p', is_list h p' l2.
Proof.
  revert p. induction l1 as [|[a v] l1 IH]; intros p; simpl.
  - eauto.
  - intros [_ (next & _ & L)]. eauto.
Qed.

Lemma is_list_lookup h p l a :
  is_list h p l → a ∈ l.*1 → is_Some (h !! a).
Proof.
  revert p. induction l as [|[b v] l IH]; intros p; simpl.
  - intros _ Hin. by apply elem_of_nil in Hin.
  - intros [_ (next & Hb & L)] Hin. apply elem_of_cons in Hin as [->|Hin]; eauto.
Qed.

(** A chain that ends is acyclic. *)
Lemma is_list_NoDup h p l : is_list h p l → NoDup l.*1.
Proof.
  revert p. induction l as [|[a v] l IH]; intros p; simpl.
  - intros _. constructor.
  - intros [-> (next & Ha & L)]. constructor; [|eauto].
    intros Hin. apply list_elem_of_fmap in Hin as ([b w] & Hb & Hin).
    simpl in Hb. subst b.
    apply list_elem_of_split in Hin as (l1 & l2 & ->).
    destruct (is_list_suffix _ _ _ _ L) as (p' & L2).
    pose proof L2 as L2'. simpl in L2'. destruct L2' as [-> (n2 & Ha2 & L2')].
    rewrite Ha in Ha2. injection Ha2 as <- <-.
    pose proof (is_list_functional _ _ _ _ L L2') as Heq.
    apply (f_equal length) in Heq. rewrite length_app in Heq. simpl in Heq. lia.
Qed.

Lemma is_list_insert_ne h p l a e :
  a ∉ l.*1 → is_list h p l → is_list (<[a := e]> h) p l.
Proof.
  revert p. induction l as [|[b v] l IH]; intros p; simpl; [done|].
  intros Hni [-> (next & Hb & L)]. apply not_elem_of_cons in Hni as [Hne Hni].
  split; [done|]. exists next. rewrite lookup_insert_ne; eauto.
Qed.

Lemma is_list_delete_ne h p l a :
  a ∉ l.*1 → is_list h p l → is_list (delete a h) p l.
Proof.
  revert p. induction l as [|[b v] l IH]; intros p; simpl; [done|].
  intros Hni [-> (next & Hb & L)]. apply not_elem_of_cons in Hni as [Hne Hni].
  split; [done|]. exists next. rewrite lookup_delete_ne; eauto.
Qed.

Lemma is_list_reaches h p l a :
  is_list h p l → (reaches h p a ↔ a ∈ l.*1).
Proof.
  intros L. split.
  - intros R. revert l L. induction R as [b|b e c Hb R IH]; intros [|[x v] l]; simpl.
    + intros [=].
    + intros [[= ->] _]. left.
    + intros [=].
    + intros [[= ->] (next & Hx & L)]. rewrite Hb in Hx. injection Hx as ->.
      right. simpl in IH. eauto.
  - revert p L. induction l as [|[b v] l IH]; intros p; simpl.
    + intros _ Hin. by apply elem_of_nil in Hin.
    + intros [-> (next & Hb & L)] Hin.
      destruct (decide (a = b)) as [->|Hne]; [constructor|].
      apply elem_of_cons in Hin as [?|Hin]; [done|].
      eapply reaches_next; [done|]. simpl. eauto.
Qed.

Lemma repr_disjoint q lpush lpop : repr q lpush lpop → disjoint_lists q.
Proof.
  intros (Lpush & Lpop & ND) a _ [R1 R2].
  apply (is_list_reaches _ _ _ _ Lpush) in R1.
  apply (is_list_reaches _ _ _ _ Lpop) in R2.
  apply NoDup_app in ND as (_ & Hdisj & _). by eapply Hdisj.
Qed.

(** ** The primitives on a live entry *)

#[local] Arguments load_mNext : simpl never.
#[local] Arguments store_mNext : simpl never.
#[local] Arguments move_mValue : simpl never.
#[local] Arguments delete_Entry : simpl never.

Lemma load_mNext_live h pu po a en :
  h !! a = Some en →
  load_mNext (Some a) (mkQueue h pu po) = Done (mNext en, mkQueue h pu po).
Proof. intros Ha. unfold load_mNext, bind, deref. simpl. by rewrite Ha. Qed.

Lemma store_mNext_live h pu po a en p :
  h !! a = Some en →
  store_mNext (Some a) p (mkQueue h pu po)
  = Done (tt, mkQueue (<[a := mkEntry (mValue en) p]> h) pu po).
Proof. intros Ha. unfold store_mNext, bind, deref. simpl. by rewrite Ha. Qed.

Lemma move_mValue_live h pu po a en :
  h !! a = Some en →
  move_mValue (Some a) (mkQueue h pu po) = Done (mValue en, mkQueue h pu po).
Proof. intros Ha. unfold move_mValue, bind, deref. simpl. by rewrite Ha. Qed.

Lemma delete_Entry_live h pu po a en :
  h !! a = Some en →
  delete_Entry (Some a) (mkQueue h pu po) = Done (tt, mkQueue (delete a h) pu po).
Proof. intros Ha. unfold delete_Entry, bind, deref. simpl. by rewrite Ha. Qed.

(** ** What [push] computes *)

Lemma push_loop_spec fuel : ∀ spurious entry h pu po v next,
  length spurious < fuel →
  h !! entry = Some (mkEntry v next) →
  push_loop fuel spurious (Some entry) pu (mkQueue h pu po)
  = Done (tt, mkQueue (<[entry := mkEntry v pu]> h) (Some entry) po).
Proof.
  induction fuel as [|fuel IH]; intros spurious entry h pu po v next Hlen Hentry;
    [lia|].
  simpl. unfold bind at 1. rewrite (store_mNext_live _ _ _ _ _ _ Hentry).
  unfold bind, compare_exchange_weak. simpl.
  rewrite decide_True by done.
  destruct spurious as [|[|] spurious]; simpl; try done.
  simpl in Hlen.
  rewrite (IH spurious entry _ pu po v pu); [|lia|by rewrite lookup_insert_eq].
  by rewrite insert_insert_eq.
Qed.

Lemma push_spec fuel spurious v q :
  length spurious < fuel →
  push fuel spurious v q
  = Done (tt, mkQueue (<[alloc (entries q) := mkEntry v (mPush q)]> (entries q))
                      (Some (alloc (entries q))) (mPop q)).
Proof.
  intros Hlen. unfold push, bind, new_Entry, load_mPush. simpl.
  rewrite (push_loop_spec fuel spurious _ _ _ _ v None);
    [|done|by rewrite lookup_insert_eq].
  by rewrite insert_insert_eq.
Qed.

(** ** What [pop] computes *)

Lemma reverse_loop_spec front : ∀ fuel g a v h popped done n pu po,
  is_list h (Some g) (front ++ [(a, v)]) →
  is_list h popped done →
  NoDup ((front ++ [(a, v)]).*1 ++ done.*1) →
  length front < fuel →
  ∃ h' popped',
    reverse_loop fuel (Some g) popped n (mkQueue h pu po)
    = Done ((Some a, popped', n + length front), mkQueue h' pu po) ∧
    is_list h' popped' (reverse front ++ done) ∧
    h' !! a = Some (mkEntry v None) ∧
    dom h' = dom h ∧
    (∀ b, b ∉ front.*1 → h' !! b = h !! b).
Proof.
  induction front as [|[b w] front IH];
    intros fuel g a v h popped done n pu po Lg Lp ND Hfuel;
    (destruct fuel as [|fuel]; [simpl in Hfuel; lia|]).
  - simpl in Lg. destruct Lg as [[= <-] (next & Ha & ->)].
    exists h, popped. simpl. unfold bind. rewrite (load_mNext_live _ _ _ _ _ Ha).
    simpl. rewrite Nat.add_0_r. done.
  - simpl in Lg. destruct Lg as [[= <-] (next & Hb & Lnext)].
    simpl in ND. apply NoDup_cons in ND as [Hb_ni ND].
    assert (∃ g', next = Some g') as [g' ->].
    { destruct front as [|[c x] front]; simpl in Lnext; destruct Lnext as [-> _]; eauto. }
    destruct (IH fuel g' a v (<[g := mkEntry w popped]> h) (Some g)
                 ((g, w) :: done) (S n) pu po) as (h' & popped' & Hrun & L' & Ha' & Hdom & Hframe).
    + apply is_list_insert_ne; [|done].
      intros Hin. apply Hb_ni, elem_of_app. by left.
    + simpl. split; [done|]. exists popped. rewrite lookup_insert_eq. split; [done|].
      apply is_list_insert_ne; [|done].
      intros Hin. apply Hb_ni, elem_of_app. by right.
    + eapply NoDup_Permutation_proper; [|apply NoDup_cons; split; [exact Hb_ni|exact ND]].
      simpl. by rewrite <- Permutation_middle.
    + simpl in Hfuel. lia.
    + exists h', popped'. simpl. unfold bind.
      rewrite (load_mNext_live _ _ _ _ _ Hb). simpl.
      rewrite (load_mNext_live _ _ _ _ _ Hb), (store_mNext_live _ _ _ _ _ _ Hb).
      simpl. rewrite Hrun. split_and!.
      * do 3 f_equal. lia.
      * by rewrite reverse_cons, <- app_assoc.
      * done.
      * rewrite Hdom, dom_insert_L. apply subseteq_union_1_L, singleton_subseteq_l.
        apply elem_of_dom. eauto.
      * intros c Hc. apply not_elem_of_cons in Hc as [Hne Hc].
        rewrite Hframe by done. by rewrite lookup_insert_ne.
Qed.

Lemma pop_counting_front fuel h pu p v next :
  h !! p = Some (mkEntry v next) →
  pop_counting fuel (mkQueue h pu (Some p))
  = Done ((Some v, 0), mkQueue (delete p h) pu next).
Proof.
  intros Hp. unfold pop_counting, bind at 1 2. simpl.
  rewrite (load_mNext_live _ _ _ _ _ Hp). unfold bind, store_mPop. simpl.
  by rewrite (move_mValue_live _ _ _ _ _ Hp), (delete_Entry_live _ _ _ _ _ Hp).
Qed.

Lemma pop_counting_empty fuel h :
  pop_counting fuel (mkQueue h None None) = Done ((None, 0), mkQueue h None None).
Proof. done. Qed.

Lemma pop_counting_refill fuel h pu front a v :
  is_list h pu (front ++ [(a, v)]) →
  length front < fuel →
  ∃ h' popped',
    pop_counting fuel (mkQueue h pu None)
    = Done ((Some v, length front), mkQueue (delete a h') None popped') ∧
    is_list (delete a h') popped' (reverse front) ∧
    h' !! a = Some (mkEntry v None) ∧
    dom h' = dom h ∧
    (∀ b, b ∉ front.*1 → h' !! b = h !! b).
Proof.
  intros L Hfuel.
  assert (∃ g, pu = Some g) as [g ->].
  { destruct front as [|[? ?] ?]; simpl in L; destruct L as [-> _]; eauto. }
  pose proof (is_list_NoDup _ _ _ L) as ND.
  destruct (reverse_loop_spec front fuel g a v h None [] 0 None None L)
    as (h' & popped' & Hrun & L' & Ha & Hdom & Hframe);
    [done|by rewrite app_nil_r|done|].
  exists h', popped'. unfold pop_counting, bind, load_mPop, exchange_mPush. simpl.
  rewrite Hrun. unfold store_mPop. simpl.
  rewrite (move_mValue_live _ _ _ _ _ Ha), (delete_Entry_live _ _ _ _ _ Ha).
  simpl. rewrite app_nil_r in L'. split_and!; try done.
  apply is_list_delete_ne; [|done].
  rewrite fmap_app in ND. simpl in ND. apply NoDup_app in ND as (_ & Hdisj & _).
  intros Hin. apply (Hdisj a); [|left].
  rewrite fmap_reverse in Hin. by apply elem_of_reverse.
Qed.

(** ** Each member function against the abstraction *)

Lemma alloc_not_in h p l : is_list h p l → alloc h ∉ l.*1.
Proof.
  intros L Hin. destruct (is_list_lookup _ _ _ _ L Hin) as [e He].
  by rewrite alloc_fresh in He.
Qed.

Lemma push_repr fuel spurious v q lpush lpop :
  repr q lpush lpop →
  length spurious < fuel →
  ∃ q', push fuel spurious v q = Done (tt, q') ∧
        repr q' ((alloc (entries q), v) :: lpush) lpop.
Proof.
  intros (Lpush & Lpop & ND) Hfuel. eexists. split; [by apply push_spec|].
  pose proof (alloc_not_in _ _ _ Lpush) as N1.
  pose proof (alloc_not_in _ _ _ Lpop) as N2.
  unfold repr. simpl. split; [|split].
  - split; [done|]. exists (mPush q). rewrite lookup_insert_eq. split; [done|].
    by apply is_list_insert_ne.
  - by apply is_list_insert_ne.
  - apply NoDup_cons. split; [|done]. rewrite elem_of_app. tauto.
Qed.

Lemma pop_repr fuel q lpush lpop :
  repr q lpush lpop →
  length lpush ≤ fuel →
  ∃ q' lpush' lpop',
    pop fuel q = Done (head (lpop.*2 ++ reverse lpush.*2), q') ∧
    repr q' lpush' lpop' ∧
    lpop'.*2 ++ reverse lpush'.*2 = tail (lpop.*2 ++ reverse lpush.*2).
Proof.
  destruct q as [h pu po]. unfold repr. simpl. intros (Lpush & Lpop & ND) Hfuel.
  destruct lpop as [|[p v] rest].
  - simpl in Lpop. subst po.
    destruct lpush as [|[a v] front _] using rev_ind.
    + simpl in Lpush. subst pu. exists (mkQueue h None None), [], []. done.
    + rewrite length_app in Hfuel. simpl in Hfuel.
      destruct (pop_counting_refill fuel h pu front a v Lpush)
        as (h' & popped' & Hrun & L' & _); [lia|].
      exists (mkQueue (delete a h') None popped'), [], (reverse front).
      unfold pop, bind. rewrite Hrun. simpl.
      rewrite fmap_app, reverse_app. simpl. split_and!; try done.
      * by eapply is_list_NoDup.
      * by rewrite fmap_reverse, app_nil_r.
  - simpl in Lpop. destruct Lpop as [-> (next & Hp & Lrest)].
    exists (mkQueue (delete p h) pu next), lpush, rest.
    unfold pop, bind. rewrite (pop_counting_front fuel h pu p v next Hp). simpl.
    apply NoDup_app in ND as (ND1 & Hdisj & ND2). simpl in ND2.
    apply NoDup_cons in ND2 as [Hp_ni ND2].
    split_and!; try done.
    + apply is_list_delete_ne; [|done]. intros Hin. apply (Hdisj p Hin). left.
    + by apply is_list_delete_ne.
    + apply NoDup_app. split_and!; try done.
      intros x Hx Hx'. apply (Hdisj x Hx). by right.
Qed.

Lemma isEmpty_spec q :
  isEmpty q
  = Done (bool_decide (mPush q = None) && bool_decide (mPop q = None), q).
Proof. destruct q as [h [a|] [b|]]; done. Qed.

(** ** More fuel never changes a result *)

Lemma push_loop_mono fuel : ∀ fuel' spurious entry previousHead q x,
  push_loop fuel spurious entry previousHead q = Done x →
  fuel ≤ fuel' →
  push_loop fuel' spurious entry previousHead q = Done x.
Proof.
  induction fuel as [|fuel IH]; intros fuel' spurious entry previousHead q x;
    [done|].
  destruct fuel' as [|fuel']; [lia|]. simpl. unfold bind.
  destruct (store_mNext _ _ _) as [[[] q1]| |]; try done.
  destruct (compare_exchange_weak _ _ _ _) as [[[[|] p] q2]| |]; try done.
  simpl. intros Hrun Hle. apply IH; [done|lia].
Qed.

Lemma push_mono fuel fuel' spurious v q x :
  push fuel spurious v q = Done x →
  fuel ≤ fuel' →
  push fuel' spurious v q = Done x.
Proof. unfold push, bind. simpl. apply push_loop_mono. Qed.

Lemma reverse_loop_mono fuel : ∀ fuel' g popped n q x,
  reverse_loop fuel g popped n q = Done x →
  fuel ≤ fuel' →
  reverse_loop fuel' g popped n q = Done x.
Proof.
  induction fuel as [|fuel IH]; intros fuel' g popped n q x; [done|].
  destruct fuel' as [|fuel']; [lia|]. simpl. unfold bind.
  destruct (load_mNext _ _) as [[[c|] q1]| |]; try done.
  destruct (load_mNext _ _) as [[next q2]| |]; try done.
  destruct (store_mNext _ _ _) as [[[] q3]| |]; try done.
  intros Hrun Hle. apply IH; [done|lia].
Qed.

Lemma pop_counting_mono fuel fuel' q x :
  pop_counting fuel q = Done x →
  fuel ≤ fuel' →
  pop_counting fuel' q = Done x.
Proof.
  destruct q as [h pu [p|]]; unfold pop_counting, bind, load_mPop, exchange_mPush;
    simpl; [by intros|].
  destruct pu as [g|]; [|by intros].
  destruct (reverse_loop fuel _ _ _ _) as [[r q1]| |] eqn:Hrun; try done.
  intros Hx Hle. by rewrite (reverse_loop_mono _ _ _ _ _ _ _ Hrun Hle).
Qed.

Lemma pop_mono fuel fuel' q x :
  pop fuel q = Done x → fuel ≤ fuel' → pop fuel' q = Done x.
Proof.
  unfold pop, bind.
  destruct (pop_counting fuel q) as [[r q1]| |] eqn:Hrun; try done.
  intros Hx Hle. by rewrite (pop_counting_mono _ _ _ _ Hrun Hle).
Qed.

Lemma perform_mono fuel fuel' c q x :
  perform fuel c q = Done x → fuel ≤ fuel' → perform fuel' c q = Done x.
Proof.
  destruct c as [spurious v| |]; simpl; unfold bind; [| |done].
  - destruct (push fuel spurious v q) as [[r q1]| |] eqn:Hrun; try done.
    intros Hx Hle. by rewrite (push_mono _ _ _ _ _ _ Hrun Hle).
  - destruct (pop fuel q) as [[r q1]| |] eqn:Hrun; try done.
    intros Hx Hle. by rewrite (pop_mono _ _ _ _ Hrun Hle).
Qed.

(** ** The refinement, one call at a time *)

Lemma empty_queue_models : models empty_queue [].
Proof. exists [], []. unfold repr. simpl. split_and!; try done. constructor. Qed.

Lemma models_length (s : list T) (lpush lpop : list (addr * T)) :
  s = lpop.*2 ++ reverse lpush.*2 → length lpush ≤ length s.
Proof.
  intros ->. rewrite length_app, length_reverse, !length_fmap. lia.
Qed.

Lemma perform_refines fuel c q s :
  models q s →
  length s + fuel_bound [c] ≤ fuel →
  ∃ q', perform fuel c q = Done ((fifo_perform c s).1, q') ∧
        models q' (fifo_perform c s).2.
Proof.
  intros (lpush & lpop & Hrepr & Hs) Hfuel.
  destruct c as [spurious v| |]; simpl in *.
  - destruct (push_repr fuel spurious v q lpush lpop Hrepr) as (q' & Hrun & Hrepr');
      [lia|].
    exists q'. unfold bind. rewrite Hrun. split; [done|].
    exists ((alloc (entries q), v) :: lpush), lpop. split; [done|].
    subst s. simpl. by rewrite reverse_cons, app_assoc.
  - pose proof (models_length _ _ _ Hs).
    destruct (pop_repr fuel q lpush lpop Hrepr) as (q' & lpush' & lpop' & Hrun & Hrepr' & Hs');
      [lia|].
    exists q'. unfold bind. rewrite Hrun, <- Hs. split; [done|].
    exists lpush', lpop'. split; [done|]. by rewrite Hs', Hs.
  - exists q. unfold bind. rewrite isEmpty_spec. split.
    + do 2 f_equal. subst s. destruct Hrepr as (Lpush & Lpop & _).
      destruct lpop as [|[a v] lpop]; simpl in Lpop.
      * rewrite Lpop. destruct lpush as [|[b w] lpush _] using rev_ind; simpl in Lpush.
        -- by rewrite Lpush.
        -- rewrite fmap_app, reverse_app. simpl.
           destruct lpush as [|[? ?] ?]; simpl in Lpush; by destruct Lpush as [-> _].
      * destruct Lpop as [-> _]. by rewrite andb_false_r.
    + by exists lpush, lpop.
Qed.

Lemma run_refines fuel cs : ∀ q s,
  models q s →
  length s + fuel_bound cs ≤ fuel →
  ∃ q', run fuel cs q = Done ((fifo_run cs s).1, q') ∧
        models q' (fifo_run cs s).2.
Proof.
  induction cs as [|c cs IH]; intros q s Hm Hfuel.
  - exists q. done.
  - destruct (perform_refines fuel c q s Hm) as (q1 & Hrun1 & Hm1).
    { destruct c; simpl in *; lia. }
    destruct (IH q1 (fifo_perform c s).2 Hm1) as (q2 & Hrun2 & Hm2).
    { destruct c; simpl in *; rewrite ?length_app; simpl; try lia.
      destruct s; simpl in *; lia. }
    exists q2. simpl. unfold bind. rewrite Hrun1, Hrun2.
    destruct (fifo_perform c s) as [r s1]. simpl in *.
    by destruct (fifo_run cs s1) as [rs s2].
Qed.

(** Every state that a sequence of calls reaches is represented by two
    finite chains without a shared entry. *)
Lemma perform_preserves_repr fuel c q r q' :
  (∃ lpush lpop, repr q lpush lpop) →
  perform fuel c q = Done (r, q') →
  ∃ lpush lpop, repr q' lpush lpop.
Proof.
  intros (lpush & lpop & Hrepr) Hrun.
  set (s := lpop.*2 ++ reverse lpush.*2).
  destruct (perform_refines (fuel + length s + fuel_bound [c]) c q s)
    as (q1 & Hrun1 & (lpush' & lpop' & Hrepr' & _)); [by exists lpush, lpop|lia|].
  apply (perform_mono _ (fuel + length s + fuel_bound [c])) in Hrun; [|lia].
  rewrite Hrun in Hrun1. injection Hrun1 as _ <-. eauto.
Qed.

Lemma run_preserves_repr fuel cs : ∀ q rs q',
  (∃ lpush lpop, repr q lpush lpop) →
  run fuel cs q = Done (rs, q') →
  ∃ lpush lpop, repr q' lpush lpop.
Proof.
  induction cs as [|c cs IH]; intros q rs q' Hrepr; simpl.
  - by intros [= _ <-].
  - unfold bind. destruct (perform fuel c q) as [[r q1]| |] eqn:Hrun1; try done.
    destruct (run fuel cs q1) as [[rs' q2]| |] eqn:Hrun2; try done.
    intros [= _ <-]. eapply IH; [|done]. by eapply perform_preserves_repr.
Qed.

Lemma push_loop_ignores_mPop fuel : ∀ spurious entry prev h pu po q',
  push_loop fuel spurious entry prev (mkQueue h pu po) = Done (tt, q') →
  ∀ p, push_loop fuel spurious entry prev (mkQueue h pu p)
       = Done (tt, mkQueue (entries q') (mPush q') p).
Proof.
  induction fuel as [|fuel IH]; intros spurious entry prev h pu po q'; [done|].
  simpl. unfold store_mNext, bind, deref, compare_exchange_weak. simpl.
  destruct entry as [a|]; [|done]. destruct (h !! a); [|done]. simpl.
  destruct (decide (pu = prev)); [destruct (hd false spurious)|]; simpl.
  - apply IH.
  - by intros [= <-] p.
  - apply IH.
Qed.

Lemma pop_single fuel h a v :
  h !! a = Some (mkEntry v None) →
  0 < fuel →
  pop fuel (mkQueue h (Some a) None) = Done (Some v, mkQueue (delete a h) None None).
Proof.
  intros Ha Hfuel.
  destruct (pop_counting_refill fuel h (Some a) [] a v)
    as (h' & popped' & Hrun & L' & _ & _ & Hframe); [simpl; eauto|done|].
  simpl in L'. subst popped'. unfold pop, bind. rewrite Hrun. simpl.
  assert (h' = h) as ->; [|done].
  apply map_eq. intros b. apply Hframe, not_elem_of_nil.
Qed.

(** ** Lists of lists *)

Lemma concat_insert_cons {A} (ls : list (list A)) i x l :
  ls !! i = Some (x :: l) → concat ls ≡ₚ x :: concat (<[i := l]> ls).
Proof.
  revert i. induction ls as [|l0 ls IH]; intros [|i]; simpl; try done.
  - by intros [= ->].
  - intros Hi. rewrite (IH i Hi). by rewrite Permutation_middle.
Qed.

Lemma elem_of_concat {A} (ls : list (list A)) l x :
  l ∈ ls → x ∈ l → x ∈ concat ls.
Proof.
  induction 1 as [l ls|l l' ls _ IH]; simpl; rewrite elem_of_app; auto.
Qed.

Lemma elem_of_concat_inv {A} (ls : list (list A)) x :
  x ∈ concat ls → ∃ l, l ∈ ls ∧ x ∈ l.
Proof.
  induction ls as [|l ls IH]; simpl.
  - intros Hin. by apply elem_of_nil in Hin.
  - rewrite elem_of_app. intros [Hin|Hin].
    + exists l. split; [left|done].
    + destruct (IH Hin) as (l' & Hl' & Hx). exists l'. split; [by right|done].
Qed.

Lemma concat_disjoint {A} (ls : list (list A)) i j li lj x :
  NoDup (concat ls) →
  ls !! i = Some li → ls !! j = Some lj → i ≠ j →
  x ∈ li → x ∉ lj.
Proof.
  revert i j. induction ls as [|l0 ls IH]; intros [|i] [|j]; simpl; try done.
  - intros ND [= ->] Hj _ Hx Hx'. apply NoDup_app in ND as (_ & Hdisj & _).
    apply (Hdisj x Hx). apply (elem_of_concat _ lj); [|done].
    by eapply list_elem_of_lookup_2.
  - intros ND Hi [= ->] _ Hx Hx'. apply NoDup_app in ND as (_ & Hdisj & _).
    apply (Hdisj x Hx'). apply (elem_of_concat _ li); [|done].
    by eapply list_elem_of_lookup_2.
  - intros ND Hi Hj Hne. apply NoDup_app in ND as (_ & _ & ND).
    apply (IH i j); auto.
Qed.

Lemma concat_nil_lookup {A} (ls : list (list A)) i l :
  concat ls = [] → ls !! i = Some l → l = [].
Proof.
  revert i. induction ls as [|l0 ls IH]; intros [|i]; simpl; try done.
  - intros [-> _]%app_eq_nil [= ->]. done.
  - intros [_ H]%app_eq_nil. by apply IH.
Qed.

Lemma length_concat_uniform {A} (ls : list (list A)) K :
  Forall (λ l, length l = K) ls → length (concat ls) = length ls * K.
Proof.
  induction 1 as [|l ls Hl _ IH]; simpl; [done|]. rewrite length_app. lia.
Qed.

(** ** The threads: what each holds is live and stays put *)

Lemma producer_ok_live h p a :
  producer_ok h p → a ∈ prod_owned p → is_Some (h !! a).
Proof.
  unfold producer_ok, prod_owned. destruct (pc p) as [|e|e prev|e prev].
  - intros _ Hin. by apply elem_of_nil in Hin.
  - intros (b & v & rest & next & -> & _ & Hb) ->%list_elem_of_singleton. eauto.
  - intros (b & v & rest & next & -> & _ & Hb) ->%list_elem_of_singleton. eauto.
  - intros (b & v & rest & -> & _ & Hb) ->%list_elem_of_singleton. eauto.
Qed.

Lemma producer_ok_insert_ne h p a e :
  a ∉ prod_owned p → producer_ok h p → producer_ok (<[a := e]> h) p.
Proof.
  unfold producer_ok, prod_owned. destruct (pc p) as [|en|en prev|en prev]; [done|..].
  - intros Hni (b & v & rest & next & -> & Htodo & Hb).
    exists b, v, rest, next. rewrite lookup_insert_ne; [done|].
    intros ->. apply Hni. left.
  - intros Hni (b & v & rest & next & -> & Htodo & Hb).
    exists b, v, rest, next. rewrite lookup_insert_ne; [done|].
    intros ->. apply Hni. left.
  - intros Hni (b & v & rest & -> & Htodo & Hb).
    exists b, v, rest. rewrite lookup_insert_ne; [done|].
    intros ->. apply Hni. left.
Qed.

Lemma producer_ok_delete_ne h p a :
  a ∉ prod_owned p → producer_ok h p → producer_ok (delete a h) p.
Proof.
  unfold producer_ok, prod_owned. destruct (pc p) as [|en|en prev|en prev]; [done|..].
  - intros Hni (b & v & rest & next & -> & Htodo & Hb).
    exists b, v, rest, next. rewrite lookup_delete_ne; [done|].
    intros ->. apply Hni. left.
  - intros Hni (b & v & rest & next & -> & Htodo & Hb).
    exists b, v, rest, next. rewrite lookup_delete_ne; [done|].
    intros ->. apply Hni. left.
  - intros Hni (b & v & rest & -> & Htodo & Hb).
    exists b, v, rest. rewrite lookup_delete_ne; [done|].
    intros ->. apply Hni. left.
Qed.

Lemma consumer_ok_live h po k own pend a :
  consumer_ok h po k own pend → a ∈ own → is_Some (h !! a).
Proof.
  intros Hok Hin. destruct Hok;
    rewrite ?elem_of_cons, ?elem_of_app, ?elem_of_nil in Hin;
    intuition (subst; eauto using is_list_lookup).
Qed.

Lemma consumer_ok_insert_ne h po k own pend a e :
  a ∉ own → consumer_ok h po k own pend → consumer_ok (<[a := e]> h) po k own pend.
Proof.
  intros Hni Hok. destruct Hok;
    rewrite ?not_elem_of_cons, ?not_elem_of_app in Hni;
    econstructor; eauto;
    try (rewrite lookup_insert_ne; [done|]; intuition congruence);
    apply is_list_insert_ne; intuition.
Qed.

(** ** A step of a producer keeps the store well formed *)

Lemma prod_owned_insert_same (ps : list producer) (i : nat) p p' :
  ps !! i = Some p →
  prod_owned p' = prod_owned p →
  prod_owned <$> <[i := p']> ps = prod_owned <$> ps.
Proof.
  intros Hi Heq. rewrite list_fmap_insert. apply list_insert_id.
  rewrite list_lookup_fmap, Hi. simpl. by rewrite Heq.
Qed.

Lemma producers_frame (h h' : gmap addr Entry) (ps : list producer) (i : nat) p p' a :
  NoDup (concat (prod_owned <$> ps)) →
  ps !! i = Some p →
  a ∈ prod_owned p →
  Forall (producer_ok h) ps →
  producer_ok h' p' →
  (∀ pj, a ∉ prod_owned pj → producer_ok h pj → producer_ok h' pj) →
  Forall (producer_ok h') (<[i := p']> ps).
Proof.
  intros ND Hi Ha Hall Hp' Hframe. apply Forall_lookup. intros j pj Hj.
  apply list_lookup_insert_Some in Hj as [(-> & -> & _)|(Hne & Hj)]; [done|].
  apply Hframe; [|by eapply Forall_lookup in Hall].
  eapply (concat_disjoint _ i j); [done| | |done|done];
    by rewrite list_lookup_fmap, ?Hi, ?Hj.
Qed.

Lemma owned_elsewhere (l1 l2 : list addr) (ps : list producer) (i : nat) p a :
  NoDup (l1 ++ l2 ++ concat (prod_owned <$> ps)) →
  ps !! i = Some p →
  a ∈ prod_owned p →
  (a ∉ l1) ∧ (a ∉ l2) ∧ NoDup (concat (prod_owned <$> ps)).
Proof.
  intros ND Hi Ha.
  assert (a ∈ concat (prod_owned <$> ps)) as Hin.
  { apply (elem_of_concat _ (prod_owned p)); [|done].
    apply list_elem_of_fmap. exists p. split; [done|]. by eapply list_elem_of_lookup_2. }
  apply NoDup_app in ND as (_ & D1 & ND). apply NoDup_app in ND as (_ & D2 & ND).
  split_and!; [| |done].
  - intros H1. apply (D1 a H1). apply elem_of_app. by right.
  - intros H2. by apply (D2 a H2).
Qed.

Lemma producer_step_ok spurious q k (ps : list producer) lpush own pend (i : nat) p :
  shape_ok q k ps lpush own pend →
  ps !! i = Some p →
  ∃ p' q',
    producer_step spurious p q = Done (p', q') ∧
    ((todo p' = todo p ∧ shape_ok q' k (<[i := p']> ps) lpush own pend) ∨
     (∃ a v, todo p = v :: todo p' ∧
             shape_ok q' k (<[i := p']> ps) ((a, v) :: lpush) own pend)).
Proof.
  destruct q as [h pu po]. unfold shape_ok. simpl.
  intros (Lpush & Hcons & Hprods & ND) Hi.
  pose proof Hprods as Hp. eapply Forall_lookup in Hp; [|exact Hi].
  destruct p as [[|e|e prev|e prev] td]; unfold producer_step, producer_ok in *;
    simpl in *.
  - (* new Entry *)
    destruct td as [|v rest].
    + eexists _, _. split; [done|]. left. split; [done|].
      by rewrite list_insert_id.
    + set (a := alloc h).
      assert (∀ b, is_Some (h !! b) → a ≠ b) as Hfresh.
      { intros b [x Hb] <-. unfold a in Hb. by rewrite alloc_fresh in Hb. }
      eexists _, _. split; [done|]. left. split; [done|]. simpl. fold a.
      split_and!.
      * apply is_list_insert_ne; [|done]. intros Hin.
        by apply (Hfresh a (is_list_lookup _ _ _ _ Lpush Hin)).
      * apply consumer_ok_insert_ne; [|done]. intros Hin.
        by apply (Hfresh a (consumer_ok_live _ _ _ _ _ _ Hcons Hin)).
      * apply Forall_insert.
        -- eapply Forall_impl; [exact Hprods|]. intros pj Hpj.
           apply producer_ok_insert_ne; [|done]. intros Hin.
           by apply (Hfresh a (producer_ok_live _ _ _ Hpj Hin)).
        -- unfold producer_ok. simpl. exists a, v, rest, None.
           by rewrite lookup_insert_eq.
      * rewrite list_fmap_insert. simpl.
        assert (a :: lpush.*1 ++ own ++ concat (prod_owned <$> ps)
                ≡ₚ lpush.*1 ++ own ++ concat (<[i := [a]]> (prod_owned <$> ps))) as <-.
        { rewrite (concat_insert_cons (<[i := [a]]> (prod_owned <$> ps)) i a []).
          - rewrite list_insert_insert_eq, (list_insert_id _ i []).
            + by rewrite <- !Permutation_middle.
            + by rewrite list_lookup_fmap, Hi.
          - apply list_lookup_insert_eq. rewrite length_fmap.
            by eapply lookup_lt_Some. }
        apply NoDup_cons. split; [|done].
        rewrite !elem_of_app. intros [Hin|[Hin|Hin]].
        -- by apply (Hfresh a (is_list_lookup _ _ _ _ Lpush Hin)).
        -- by apply (Hfresh a (consumer_ok_live _ _ _ _ _ _ Hcons Hin)).
        -- apply elem_of_concat_inv in Hin as (l & Hl & Hin).
           apply list_elem_of_fmap in Hl as (pj & -> & Hpj).
           eapply Forall_forall in Hprods; [|exact Hpj].
           by apply (Hfresh a (producer_ok_live _ _ _ Hprods Hin)).
  - (* mPush.load() *)
    destruct Hp as (a & v & rest & next & -> & -> & Ha).
    eexists _, _. split; [done|]. left. split; [done|]. simpl.
    split_and!; try done.
    + apply Forall_insert; [done|]. unfold producer_ok. simpl. eauto 10.
    + by rewrite (prod_owned_insert_same ps i _ _ Hi).
  - (* entry->mNext = previousHead *)
    destruct Hp as (a & v & rest & next & -> & -> & Ha).
    destruct (owned_elsewhere _ _ _ _ _ a ND Hi) as (N1 & N2 & NDp); [left|].
    eexists _, _. split.
    { unfold bind. by rewrite (store_mNext_live _ _ _ _ _ _ Ha). }
    left. split; [done|]. simpl. split_and!.
    + by apply is_list_insert_ne.
    + by apply consumer_ok_insert_ne.
    + eapply (producers_frame h _ ps i _ _ a NDp Hi); [left|done| |].
      * unfold producer_ok. simpl. exists a, v, rest. by rewrite lookup_insert_eq.
      * intros pj Hpj. by apply producer_ok_insert_ne.
    + by rewrite (prod_owned_insert_same ps i _ _ Hi).
  - (* mPush.compare_exchange_weak(previousHead, entry) *)
    destruct Hp as (a & v & rest & -> & -> & Ha).
    destruct (owned_elsewhere _ _ _ _ _ a ND Hi) as (N1 & N2 & NDp); [left|].
    unfold bind, compare_exchange_weak. simpl.
    destruct (decide (pu = prev)) as [->|Hne]; [destruct spurious|]; simpl.
    + eexists _, _. split; [done|]. left. split; [done|]. simpl.
      split_and!; try done.
      * apply Forall_insert; [done|]. unfold producer_ok. simpl. eauto 10.
      * by rewrite (prod_owned_insert_same ps i _ _ Hi).
    + eexists _, _. split; [done|]. right. exists a, v. split; [done|]. simpl.
      split_and!; try done.
      * eauto.
      * by apply Forall_insert.
      * rewrite list_fmap_insert. simpl.
        eapply NoDup_Permutation_proper; [|exact ND].
        rewrite (concat_insert_cons (prod_owned <$> ps) i a []).
        -- by rewrite <- !Permutation_middle.
        -- by rewrite list_lookup_fmap, Hi.
    + eexists _, _. split; [done|]. left. split; [done|]. simpl.
      split_and!; try done.
      * apply Forall_insert; [done|]. unfold producer_ok. simpl. eauto 10.
      * by rewrite (prod_owned_insert_same ps i _ _ Hi).
Qed.

(** ** A step of the consumer keeps the store well formed *)

Lemma is_list_null h (l : list (addr * T)) : is_list h None l → l = [].
Proof. destruct l as [|[a v] l]; simpl; [done|]. by intros [[=] _]. Qed.

Lemma held_elsewhere (l1 own : list addr) (ps : list producer) g :
  NoDup (l1 ++ own ++ concat (prod_owned <$> ps)) →
  g ∈ own →
  (g ∉ l1) ∧ Forall (λ p, g ∉ prod_owned p) ps.
Proof.
  intros ND Hg. apply NoDup_app in ND as (_ & D1 & ND).
  apply NoDup_app in ND as (_ & D2 & _). split.
  - intros H1. apply (D1 g H1). apply elem_of_app. by left.
  - apply Forall_forall. intros p Hp Hin. apply (D2 g Hg).
    apply (elem_of_concat _ (prod_owned p)); [|done].
    apply list_elem_of_fmap. eauto.
Qed.

Lemma consumer_step_ok q k (ps : list producer) lpush own pend :
  shape_ok q k ps lpush own pend →
  ∃ k' r q' lpush' own' pend',
    consumer_step k q = Done ((k', r), q') ∧
    shape_ok q' k' ps lpush' own' pend' ∧
    match r with Some v => [v] | None => [] end ++ pend' ++ reverse lpush'.*2
    = pend ++ reverse lpush.*2.
Proof.
  destruct q as [h pu po]. unfold shape_ok. simpl.
  intros (Lpush & Hcons & Hprods & ND).
  destruct Hcons as [lpop Lpop|p lpop Hpo Lpop|p v next rest Hp Lrest|Hpo
                    |g popped rem done Hpo Lrem Ldone
                    |g v n popped rem done Hpo Hg Lrem Ldone
                    |g v n popped rem done Hpo Hg Lrem Ldone
                    |g v popped done Hpo Hg Ldone
                    |e v next lpop He Lpop|e v next lpop He Lpop]; simpl.
  - (* mPop.load() *)
    destruct po as [p|].
    + exists (CNext (Some p)), None, (mkQueue h pu (Some p)), lpush, lpop.*1, lpop.*2.
      split; [done|]. split; [|done]. split_and!; try done. by constructor.
    + apply is_list_null in Lpop as ->.
      exists (CExchange None), None, (mkQueue h pu None), lpush, [], [].
      split; [done|]. split; [|done]. split_and!; try done. by constructor.
  - (* popped->mNext *)
    subst po. destruct lpop as [|[p' v] rest]; simpl in Lpop; [done|].
    destruct Lpop as [[= <-] (next & Hp & Lrest)].
    exists (CStoreNext (Some p) next), None, (mkQueue h pu (Some p)), lpush,
      (p :: rest.*1), (v :: rest.*2).
    split; [unfold bind; by rewrite (load_mNext_live _ _ _ _ _ Hp)|].
    split; [|done]. split_and!; try done. by econstructor.
  - (* mPop.store(next) *)
    exists (CMove (Some p)), None, (mkQueue h pu next), lpush,
      (p :: rest.*1), (v :: rest.*2).
    split; [done|]. split; [|done]. split_and!; try done. by econstructor.
  - (* mPush.exchange(nullptr) *)
    subst po. destruct pu as [g|].
    + exists (CTest (Some g) None), None, (mkQueue h None None), [],
        (lpush.*1 ++ (@nil (addr * T)).*1), (reverse lpush.*2 ++ (@nil (addr * T)).*2).
      split; [done|]. split; [|by rewrite !app_nil_r]. split_and!; try done.
      * by constructor.
      * simpl. by rewrite app_nil_r.
    + apply is_list_null in Lpush as ->.
      exists CCall, None, (mkQueue h None None), [], (@nil (addr * T)).*1,
        (@nil (addr * T)).*2.
      split; [done|]. split; [|done]. split_and!; try done. by constructor.
  - (* grabbedList->mNext, the loop test *)
    destruct rem as [|[g' v] rem]; simpl in Lrem; [done|].
    destruct Lrem as [[= <-] (next & Hg & Lrem)]. destruct next as [n|].
    + exists (CReadNext (Some g) popped), None, (mkQueue h pu po), lpush,
        (g :: rem.*1 ++ done.*1), (reverse rem.*2 ++ v :: done.*2).
      split; [unfold bind; by rewrite (load_mNext_live _ _ _ _ _ Hg)|].
      split; [|simpl; f_equal; by rewrite reverse_cons, <- app_assoc].
      split_and!; try done. by econstructor.
    + apply is_list_null in Lrem as ->.
      exists (CStorePopped (Some g) popped), None, (mkQueue h pu po), lpush,
        (g :: done.*1), (v :: done.*2).
      split; [unfold bind; by rewrite (load_mNext_live _ _ _ _ _ Hg)|].
      split; [|done]. split_and!; try done. by econstructor.
  - (* next = grabbedList->mNext *)
    exists (CRelink (Some g) popped (Some n)), None, (mkQueue h pu po), lpush,
      (g :: rem.*1 ++ done.*1), (reverse rem.*2 ++ v :: done.*2).
    split; [unfold bind; by rewrite (load_mNext_live _ _ _ _ _ Hg)|].
    split; [|done]. split_and!; try done. by econstructor.
  - (* grabbedList->mNext = popped *)
    destruct (held_elsewhere _ _ _ g ND) as (N1 & N2); [left|].
    assert (NoDup (g :: rem.*1 ++ done.*1)) as NDown.
    { apply NoDup_app in ND as (_ & _ & ND). by apply NoDup_app in ND as (ND & _). }
    apply NoDup_cons in NDown as [Hg_ni _].
    apply not_elem_of_app in Hg_ni as [Hg_rem Hg_done].
    exists (CTest (Some n) (Some g)), None,
      (mkQueue (<[g := mkEntry v popped]> h) pu po), lpush,
      (rem.*1 ++ ((g, v) :: done).*1), (reverse rem.*2 ++ ((g, v) :: done).*2).
    split; [unfold bind; by rewrite (store_mNext_live _ _ _ _ _ _ Hg)|].
    split; [|done]. split_and!.
    + by apply is_list_insert_ne.
    + constructor; [done|by apply is_list_insert_ne|].
      simpl. split; [done|]. exists popped. rewrite lookup_insert_eq.
      split; [done|]. by apply is_list_insert_ne.
    + apply Forall_forall. intros pj Hin.
      apply producer_ok_insert_ne; [by eapply Forall_forall in N2|].
      by eapply Forall_forall in Hprods.
    + eapply NoDup_Permutation_proper; [|exact ND].
      simpl. f_equiv. by rewrite <- Permutation_middle.
  - (* mPop.store(popped) *)
    exists (CMove (Some g)), None, (mkQueue h pu popped), lpush,
      (g :: done.*1), (v :: done.*2).
    split; [done|]. split; [|done]. split_and!; try done. by econstructor.
  - (* std::move(e->mValue) *)
    exists (CDelete (Some e) v), None, (mkQueue h pu po), lpush,
      (e :: lpop.*1), (v :: lpop.*2).
    split; [unfold bind; by rewrite (move_mValue_live _ _ _ _ _ He)|].
    split; [|done]. split_and!; try done. by econstructor.
  - (* delete e *)
    destruct (held_elsewhere _ _ _ e ND) as (N1 & N2); [left|].
    assert (NoDup (e :: lpop.*1)) as NDown.
    { apply NoDup_app in ND as (_ & _ & ND). by apply NoDup_app in ND as (ND & _). }
    apply NoDup_cons in NDown as [He_ni _].
    exists CCall, (Some v), (mkQueue (delete e h) pu po), lpush, lpop.*1, lpop.*2.
    split; [unfold bind; by rewrite (delete_Entry_live _ _ _ _ _ He)|].
    split; [|done]. split_and!.
    + by apply is_list_delete_ne.
    + constructor. by apply is_list_delete_ne.
    + apply Forall_forall. intros pj Hin.
      apply producer_ok_delete_ne; [by eapply Forall_forall in N2|].
      by eapply Forall_forall in Hprods.
    + simpl in ND. rewrite <- Permutation_middle in ND.
      by apply NoDup_cons in ND as [_ ND].
Qed.

(** ** The values under a step *)

Lemma values_same vals hist (ps : list producer) (i : nat) p p' :
  values_ok vals hist ps →
  ps !! i = Some p →
  todo p' = todo p →
  values_ok vals hist (<[i := p']> ps).
Proof.
  intros [Hperm Hall] Hi Htodo. split.
  - rewrite list_fmap_insert, Htodo, (list_insert_id (todo <$> ps)); [done|].
    by rewrite list_lookup_fmap, Hi.
  - apply Forall2_same_length_lookup. split.
    + rewrite length_insert. by eapply Forall2_length.
    + intros j l pj Hl Hj.
      apply list_lookup_insert_Some in Hj as [(-> & -> & _)|(Hne & Hj)].
      * rewrite Htodo. by eapply (Forall2_lookup_lr _ _ _ _ _ _ Hall).
      * by eapply (Forall2_lookup_lr _ _ _ _ _ _ Hall).
Qed.

Lemma values_linked vals hist (ps : list producer) (i : nat) p p' v :
  NoDup (concat vals) →
  values_ok vals hist ps →
  ps !! i = Some p →
  todo p = v :: todo p' →
  values_ok vals (hist ++ [v]) (<[i := p']> ps).
Proof.
  intros ND [Hperm Hall] Hi Htodo.
  destruct (Forall2_lookup_r _ _ _ _ _ Hall Hi) as (li & Hli & Heq).
  assert (v ∈ li) as Hv.
  { rewrite <- Heq, Htodo. apply elem_of_app. right. left. }
  split.
  - rewrite <- Hperm, list_fmap_insert.
    rewrite (concat_insert_cons (todo <$> ps) i v (todo p')).
    + by rewrite <- app_assoc.
    + rewrite list_lookup_fmap, Hi. simpl. by rewrite Htodo.
  - apply Forall2_same_length_lookup. split.
    + rewrite length_insert. by eapply Forall2_length.
    + intros j l pj Hl Hj. rewrite filter_app.
      apply list_lookup_insert_Some in Hj as [(-> & -> & _)|(Hne & Hj)].
      * rewrite Hl in Hli. injection Hli as ->.
        rewrite filter_cons_True, filter_nil by done.
        rewrite <- app_assoc. simpl. by rewrite <- Htodo.
      * rewrite filter_cons_False, filter_nil, app_nil_r.
        -- by eapply (Forall2_lookup_lr _ _ _ _ _ _ Hall).
        -- by eapply (concat_disjoint vals i j).
Qed.

Lemma concat_all_nil {A B} (f : A → list B) (l : list A) :
  (∀ x, f x = []) → concat (f <$> l) = [].
Proof. intros Hf. induction l as [|x l IH]; simpl; [done|]. by rewrite Hf. Qed.

Lemma inv_initial vals : inv vals (initial vals).
Proof.
  exists [], (@nil (addr * T)).*1, (@nil (addr * T)).*2. split.
  - unfold shape_ok. simpl. split_and!; try done.
    + by apply (ok_CCall _ _ []).
    + apply Forall_fmap, Forall_forall. by intros l _.
    + rewrite <- list_fmap_compose, concat_all_nil by done. constructor.
  - split; simpl.
    + by rewrite <- list_fmap_compose, list_fmap_id.
    + apply Forall2_fmap_r, Forall_Forall2_diag, Forall_forall. by intros l _.
Qed.

Lemma step_inv vals target t c :
  NoDup (concat vals) →
  inv vals c →
  ∃ c', step target t c = Done c' ∧ inv vals c'.
Proof.
  intros ND (lpush & own & pend & Hshape & Hvals).
  destruct c as [q ps k obs]. simpl in *. destruct t as [i spurious|]; simpl.
  - destruct (ps !! i) as [p|] eqn:Hi.
    + destruct (producer_step_ok spurious q k ps lpush own pend i p Hshape Hi)
        as (p' & q' & -> & [[Htodo Hshape']|(a & v & Htodo & Hshape')]).
      * eexists. split; [done|]. exists lpush, own, pend. split; [done|]. simpl.
        by eapply values_same.
      * eexists. split; [done|]. exists ((a, v) :: lpush), own, pend.
        split; [done|]. simpl. rewrite reverse_cons, !app_assoc.
        eapply values_linked; [done| |done..]. by rewrite <- !app_assoc.
    + eexists. split; [done|]. by exists lpush, own, pend.
  - destruct (consumer_finished target _).
    + eexists. split; [done|]. by exists lpush, own, pend.
    + destruct (consumer_step_ok q k ps lpush own pend Hshape)
        as (k' & r & q' & lpush' & own' & pend' & -> & Hshape' & Heq).
      eexists. split; [done|]. exists lpush', own', pend'. split; [done|]. simpl.
      by rewrite <- app_assoc, Heq.
Qed.

Lemma exec_inv vals target schedule : ∀ c,
  NoDup (concat vals) →
  inv vals c →
  ∃ c', exec target schedule c = Done c' ∧ inv vals c'.
Proof.
  induction schedule as [|t schedule IH]; intros c ND Hinv; simpl.
  - eauto.
  - destruct (step_inv vals target t c ND Hinv) as (c1 & -> & Hinv1). eauto.
Qed.

(** * The claims about the queue *)

(** C1.  Run from one thread, the queue answers every sequence of calls
    exactly as the naive first-in-first-out list does, the list being the
    pop list followed by the reversed push list; so pushing v1, v2, v3 and
    popping three times yields v1, v2, v3, and pushing a, b, popping a,
    pushing c and popping twice yields b and then c. *)
Theorem pop_order_is_fifo :
  (∀ fuel cs q s,
     models q s →
     length s + fuel_bound cs ≤ fuel →
     ∃ q', run fuel cs q = Done ((fifo_run cs s).1, q') ∧
           models q' (fifo_run cs s).2) ∧
  (∀ fuel v1 v2 v3,
     3 ≤ fuel →
     ∃ q', run fuel [Push [] v1; Push [] v2; Push [] v3; Pop; Pop; Pop] empty_queue
           = Done ([Pushed; Pushed; Pushed;
                    Popped (Some v1); Popped (Some v2); Popped (Some v3)], q')) ∧
  (∀ fuel a b c,
     3 ≤ fuel →
     ∃ q', run fuel [Push [] a; Push [] b; Pop; Push [] c; Pop; Pop] empty_queue
           = Done ([Pushed; Pushed; Popped (Some a);
                    Pushed; Popped (Some b); Popped (Some c)], q')).
Proof.
  split; [|split].
  - intros fuel cs q s. apply run_refines.
  - intros fuel v1 v2 v3 Hfuel.
    destruct (run_refines fuel [Push [] v1; Push [] v2; Push [] v3; Pop; Pop; Pop]
                empty_queue [] empty_queue_models) as (q' & Hrun & _); [simpl; lia|].
    by exists q'.
  - intros fuel a b c Hfuel.
    destruct (run_refines fuel [Push [] a; Push [] b; Pop; Push [] c; Pop; Pop]
                empty_queue [] empty_queue_models) as (q' & Hrun & _); [simpl; lia|].
    by exists q'.
Qed.

(** C2.  With the pop list empty, [pop] exchanges the push head with null.
    A null captured list gives the absent value.  Otherwise the captured
    chain, newest first, is relinked in place into oldest-first order: the
    pop head receives every entry but the oldest, the oldest entry is
    deleted, and its value is returned. *)
Theorem pop_with_empty_pop_list fuel h pu lpush :
  is_list h pu lpush →
  length lpush ≤ fuel →
  match reverse lpush with
  | [] => pu = None ∧
          pop fuel (mkQueue h pu None) = Done (None, mkQueue h None None)
  | (oldest, v) :: others =>
      ∃ h' popped',
        pop fuel (mkQueue h pu None) = Done (Some v, mkQueue h' None popped') ∧
        is_list h' popped' others ∧
        h' !! oldest = None ∧
        dom h' = dom h ∖ {[oldest]} ∧
        (∀ b, b ∉ lpush.*1 → h' !! b = h !! b)
  end.
Proof.
  intros L Hfuel. destruct lpush as [|[a v] front _] using rev_ind.
  - simpl in *. subst pu. done.
  - rewrite reverse_snoc. rewrite length_app in Hfuel. simpl in Hfuel.
    destruct (pop_counting_refill fuel h pu front a v L)
      as (h' & popped' & Hrun & L' & Ha & Hdom & Hframe); [lia|].
    exists (delete a h'), popped'. unfold pop, bind. rewrite Hrun. simpl.
    split_and!; try done.
    + apply lookup_delete_eq.
    + by rewrite dom_delete_L, Hdom.
    + intros b Hb. rewrite fmap_app in Hb. simpl in Hb.
      apply not_elem_of_app in Hb as [Hb1 Hb2].
      apply not_elem_of_cons in Hb2 as [Hne _].
      rewrite lookup_delete_ne by done. by apply Hframe.
Qed.

(** C4.  In every state that a sequence of calls reaches from the empty
    queue no allocated entry is on both the push list and the pop list, and
    any further call, [push], [pop] or [isEmpty], leads to such a state
    again. *)
Theorem push_and_pop_lists_disjoint fuel cs rs q :
  run fuel cs empty_queue = Done (rs, q) →
  disjoint_lists q ∧
  ∀ fuel' c r q', perform fuel' c q = Done (r, q') → disjoint_lists q'.
Proof.
  intros Hrun.
  assert (∃ lpush lpop, repr q lpush lpop) as Hrepr.
  { eapply run_preserves_repr; [|done].
    destruct empty_queue_models as (lpush & lpop & Hrepr & _). eauto. }
  split.
  - destruct Hrepr as (lpush & lpop & Hrepr). by eapply repr_disjoint.
  - intros fuel' c r q' Hc.
    destruct (perform_preserves_repr _ _ _ _ _ Hrepr Hc) as (lpush & lpop & Hrepr').
    by eapply repr_disjoint.
Qed.

(** C5.  With both heads null [pop] returns the absent value and leaves
    the queue as it was; a freshly constructed queue reports
    [isEmpty() == true] and [pop] on it returns the absent value. *)
Theorem pop_on_empty_queue fuel h :
  pop fuel (mkQueue h None None) = Done (None, mkQueue h None None) ∧
  isEmpty empty_queue = Done (true, empty_queue) ∧
  pop fuel empty_queue = Done (None, empty_queue).
Proof. done. Qed.

(** C6.  When the push list and the pop list are finite chains, [pop] with
    fuel for the length of the push list returns a value or the absent
    value, and the reversal loop runs at most as many times as the captured
    push list is long (not at all when the pop list is not empty). *)
Theorem pop_terminates fuel h pu po lpush lpop :
  is_list h pu lpush →
  is_list h po lpop →
  length lpush ≤ fuel →
  ∃ r n q',
    pop_counting fuel (mkQueue h pu po) = Done ((r, n), q') ∧
    pop fuel (mkQueue h pu po) = Done (r, q') ∧
    n ≤ match po with Some _ => 0 | None => length lpush end.
Proof.
  intros Lpush Lpop Hfuel. destruct lpop as [|[p v] rest]; simpl in Lpop.
  - subst po. destruct lpush as [|[a v] front _] using rev_ind.
    + simpl in Lpush. subst pu. exists None, 0, (mkQueue h None None). done.
    + rewrite length_app in *. simpl in *.
      destruct (pop_counting_refill fuel h pu front a v Lpush)
        as (h' & popped' & Hrun & _); [lia|].
      exists (Some v), (length front), (mkQueue (delete a h') None popped').
      unfold pop, bind. rewrite Hrun. split_and!; try done. lia.
  - destruct Lpop as [-> (next & Hp & _)].
    exists (Some v), 0, (mkQueue (delete p h) pu next).
    unfold pop, bind. by rewrite (pop_counting_front fuel h pu p v next Hp).
Qed.

(** C7.  [isEmpty] returns the conjunction of the two null checks, so it
    returns true only if both heads are null, and it leaves the queue
    unchanged. *)
Theorem isEmpty_reads_both_heads q :
  isEmpty q
  = Done (bool_decide (mPush q = None) && bool_decide (mPop q = None), q) ∧
  (∀ b q', isEmpty q = Done (b, q') →
           q' = q ∧ (b = true → mPush q = None ∧ mPop q = None)).
Proof.
  split; [apply isEmpty_spec|].
  intros b q'. rewrite isEmpty_spec. intros [= <- <-]. split; [done|].
  intros [H1 H2]%andb_prop.
  by apply bool_decide_eq_true in H1, H2.
Qed.

(** C8.  A completed [push] leaves the pop head and the chain hanging from
    it as they were: it changes the push head and the new entry only, and
    its outcome does not depend on the pop head. *)
Theorem push_leaves_pop_list fuel spurious v q q' :
  push fuel spurious v q = Done (tt, q') →
  mPop q' = mPop q ∧
  (∀ l, is_list (entries q) (mPop q) l → is_list (entries q') (mPop q') l) ∧
  (∀ a, is_Some (entries q !! a) → entries q' !! a = entries q !! a) ∧
  dom (entries q') = {[alloc (entries q)]} ∪ dom (entries q) ∧
  (∀ p, push fuel spurious v (mkQueue (entries q) (mPush q) p)
        = Done (tt, mkQueue (entries q') (mPush q') p)).
Proof.
  intros Hrun.
  pose proof (push_mono _ (fuel + S (length spurious)) _ _ _ _ Hrun) as Hbig.
  rewrite push_spec in Hbig by lia. specialize (Hbig ltac:(lia)).
  injection Hbig as Hq'. split_and!.
  - by subst q'.
  - subst q'. simpl. intros l L. apply is_list_insert_ne; [|done]. by apply alloc_not_in in L.
  - subst q'. simpl. intros a [e He]. rewrite lookup_insert_ne; [done|].
    intros <-. by rewrite alloc_fresh in He.
  - subst q'. simpl. by rewrite dom_insert_L.
  - clear Hq'. intros p.
    unfold push, bind in Hrun |- *. simpl in *.
    pose proof (push_loop_ignores_mPop _ _ _ _ _ _ _ _ Hrun p) as Hp.
    by rewrite Hp.
Qed.

(** C9.  From a state with both heads null, [push v] followed by [pop]
    returns [v] and restores the state: both heads are null again, the
    pop head in particular, no entry remains, and [isEmpty] reports true. *)
Theorem push_then_pop_roundtrip fuel fuel' spurious v h :
  length spurious < fuel →
  0 < fuel' →
  (push fuel spurious v ;;; pop fuel') (mkQueue h None None)
  = Done (Some v, mkQueue h None None) ∧
  (push fuel spurious v ;;; pop fuel' ;;; isEmpty) (mkQueue h None None)
  = Done (true, mkQueue h None None).
Proof.
  intros Hfuel Hfuel'.
  assert ((push fuel spurious v ;;; pop fuel') (mkQueue h None None)
          = Done (Some v, mkQueue h None None)) as Hrun.
  { unfold bind. rewrite push_spec by done. simpl.
    rewrite (pop_single fuel' _ (alloc h) v); [|by rewrite lookup_insert_eq|done].
    by rewrite delete_insert_id. }
  split; [done|].
  unfold bind in Hrun |- *. destruct (push fuel spurious v _) as [[[] q1]| |]; try done.
  by rewrite Hrun.
Qed.

(** * Further properties of the queue *)

(** ** Every entry is accounted for *)

Lemma push_accounts fuel spurious v q lpush lpop :
  accounts q lpush lpop →
  length spurious < fuel →
  ∃ q', push fuel spurious v q = Done (tt, q') ∧
        accounts q' ((alloc (entries q), v) :: lpush) lpop.
Proof.
  intros [Hrepr Hdom] Hfuel.
  destruct (push_repr fuel spurious v q lpush lpop Hrepr Hfuel) as (q' & Hrun & Hrepr').
  exists q'. split; [done|]. split; [done|].
  rewrite push_spec in Hrun by done. injection Hrun as <-. simpl.
  intros a. rewrite lookup_insert_is_Some, Hdom, elem_of_cons.
  destruct (decide (alloc (entries q) = a)) as [->|Hne]; [tauto|].
  split; [intros [?|[_ ?]]; [done|by right]|intros [?|?]; [done|by right]].
Qed.

Lemma pop_counting_accounts fuel q lpush lpop :
  accounts q lpush lpop →
  length lpush ≤ fuel →
  ∃ n q' lpush' lpop',
    pop_counting fuel q = Done ((head (lpop.*2 ++ reverse lpush.*2), n), q') ∧
    accounts q' lpush' lpop' ∧
    lpop'.*2 ++ reverse lpush'.*2 = tail (lpop.*2 ++ reverse lpush.*2) ∧
    n + length lpush' ≤ length lpush.
Proof.
  destruct q as [h pu po]. unfold accounts, repr. simpl.
  intros [(Lpush & Lpop & ND) Hdom] Hfuel.
  destruct lpop as [|[p v] rest].
  - simpl in Lpop. subst po.
    destruct lpush as [|[a v] front _] using rev_ind.
    + simpl in Lpush. subst pu.
      exists 0, (mkQueue h None None), [], []. simpl. split_and!; try done.
    + rewrite length_app in Hfuel. simpl in Hfuel.
      destruct (pop_counting_refill fuel h pu front a v Lpush)
        as (h' & popped' & Hrun & L' & _ & Hdom' & _); [lia|].
      exists (length front), (mkQueue (delete a h') None popped'), [], (reverse front).
      rewrite Hrun, fmap_app, reverse_app. simpl. split_and!; try done.
      * by eapply is_list_NoDup.
      * intros b. rewrite lookup_delete_is_Some, <- elem_of_dom, Hdom', elem_of_dom.
        rewrite Hdom, app_nil_r, fmap_app, fmap_reverse, elem_of_reverse. simpl.
        rewrite elem_of_app, list_elem_of_singleton.
        rewrite app_nil_r, fmap_app in ND. simpl in ND.
        apply NoDup_app in ND as (_ & Hdisj & _).
        split; [intros [Hne [Hin|Heq]]; [done|congruence]|].
        intros Hin. split; [|by left]. intros <-. apply (Hdisj a Hin). left.
      * by rewrite fmap_reverse, app_nil_r.
      * rewrite length_app. simpl. lia.
  - simpl in Lpop. destruct Lpop as [-> (next & Hp & Lrest)].
    exists 0, (mkQueue (delete p h) pu next), lpush, rest.
    rewrite (pop_counting_front fuel h pu p v next Hp). simpl.
    pose proof ND as ND'.
    apply NoDup_app in ND as (ND1 & Hdisj & ND2). simpl in ND2.
    apply NoDup_cons in ND2 as [Hp_ni ND2].
    split_and!; try done.
    + apply is_list_delete_ne; [|done]. intros Hin. apply (Hdisj p Hin). left.
    + by apply is_list_delete_ne.
    + apply NoDup_app. split_and!; try done.
      intros x Hx Hx'. apply (Hdisj x Hx). by right.
    + intros b. rewrite lookup_delete_is_Some, Hdom. simpl.
      rewrite !elem_of_app, elem_of_cons.
      split; [intros [Hne [?|[?|?]]]; [by left|congruence|by right]|].
      intros [Hin|Hin]; (split; [|tauto]); intros <-.
      * apply (Hdisj p Hin). left.
      * done.
Qed.

Lemma perform_counting_accounts fuel c q lpush lpop :
  accounts q lpush lpop →
  length lpush + fuel_bound [c] ≤ fuel →
  ∃ n q' lpush' lpop',
    perform_counting fuel c q
    = Done (((fifo_perform c (lpop.*2 ++ reverse lpush.*2)).1, n), q') ∧
    accounts q' lpush' lpop' ∧
    lpop'.*2 ++ reverse lpush'.*2 = (fifo_perform c (lpop.*2 ++ reverse lpush.*2)).2 ∧
    n + length lpush' ≤ pushes [c] + length lpush.
Proof.
  intros Hacc Hfuel. destruct c as [spurious v| |]; simpl in *.
  - destruct (push_accounts fuel spurious v q lpush lpop Hacc) as (q' & Hrun & Hacc');
      [lia|].
    exists 0, q', ((alloc (entries q), v) :: lpush), lpop.
    unfold bind. rewrite Hrun. split_and!; try done.
    simpl. by rewrite reverse_cons, app_assoc.
  - destruct (pop_counting_accounts fuel q lpush lpop Hacc)
      as (n & q' & lpush' & lpop' & Hrun & Hacc' & Hs & Hn); [lia|].
    exists n, q', lpush', lpop'. unfold bind. by rewrite Hrun.
  - exists 0, q, lpush, lpop. unfold bind. rewrite isEmpty_spec.
    split_and!; try done. do 3 f_equal.
    destruct Hacc as [(Lpush & Lpop & _) _].
    destruct lpop as [|[a v] lpop]; simpl in Lpop.
    + rewrite Lpop. destruct lpush as [|[b w] lpush _] using rev_ind; simpl in Lpush.
      * by rewrite Lpush.
      * rewrite fmap_app, reverse_app. simpl.
        destruct lpush as [|[? ?] ?]; simpl in Lpush; by destruct Lpush as [-> _].
    + destruct Lpop as [-> _]. by rewrite andb_false_r.
Qed.

Lemma run_counting_accounts fuel cs : ∀ q lpush lpop,
  accounts q lpush lpop →
  length lpush + fuel_bound cs ≤ fuel →
  ∃ n q' lpush' lpop',
    run_counting fuel cs q
    = Done (((fifo_run cs (lpop.*2 ++ reverse lpush.*2)).1, n), q') ∧
    accounts q' lpush' lpop' ∧
    lpop'.*2 ++ reverse lpush'.*2 = (fifo_run cs (lpop.*2 ++ reverse lpush.*2)).2 ∧
    n + length lpush' ≤ pushes cs + length lpush.
Proof.
  induction cs as [|c cs IH]; intros q lpush lpop Hacc Hfuel.
  - exists 0, q, lpush, lpop. simpl. split_and!; try done.
  - destruct (perform_counting_accounts fuel c q lpush lpop Hacc)
      as (n1 & q1 & lpush1 & lpop1 & Hrun1 & Hacc1 & Hs1 & Hn1).
    { destruct c; simpl in *; lia. }
    destruct (IH q1 lpush1 lpop1 Hacc1) as (n2 & q2 & lpush2 & lpop2 & Hrun2 & Hacc2 & Hs2 & Hn2).
    { destruct c; simpl in *; lia. }
    exists (n1 + n2), q2, lpush2, lpop2. simpl. unfold bind.
    rewrite Hrun1, Hrun2, Hs1 in *.
    destruct (fifo_perform c _) as [r s1]. simpl in *.
    destruct (fifo_run cs s1) as [rs s2]. simpl in *.
    split_and!; try done. destruct c; simpl in *; lia.
Qed.

Lemma run_counting_run fuel cs : ∀ q,
  run fuel cs q
  = match run_counting fuel cs q with
    | Done ((rs, _), q') => Done (rs, q')
    | Undefined => Undefined
    | OutOfFuel => OutOfFuel
    end.
Proof.
  induction cs as [|c cs IH]; intros q; simpl; [done|]. unfold bind.
  assert (perform fuel c q
          = match perform_counting fuel c q with
            | Done ((r, _), q') => Done (r, q')
            | Undefined => Undefined
            | OutOfFuel => OutOfFuel
            end) as ->.
  { destruct c; simpl; unfold bind, pop, bind.
    - by destruct (push _ _ _ _) as [[[] ?]| |].
    - by destruct (pop_counting _ _) as [[[? ?] ?]| |].
    - by destruct (isEmpty _) as [[? ?]| |]. }
  destruct (perform_counting fuel c q) as [[[r n] q1]| |]; try done. simpl.
  rewrite IH. by destruct (run_counting fuel cs q1) as [[[rs m] q2]| |].
Qed.

Lemma empty_queue_accounts : accounts empty_queue [] [].
Proof.
  split.
  - unfold repr. simpl. split_and!; try done. constructor.
  - intros a. simpl. rewrite lookup_empty, elem_of_nil. split; [by intros [? ?]|done].
Qed.

Lemma accounts_size q lpush lpop :
  accounts q lpush lpop → size (entries q) = length lpop.*2 + length lpush.*2.
Proof.
  intros [(_ & _ & ND) Hdom].
  rewrite <- size_dom.
  assert (dom (entries q) = list_to_set (lpush.*1 ++ lpop.*1)) as ->.
  { apply set_eq. intros a. by rewrite elem_of_dom, Hdom, elem_of_list_to_set. }
  rewrite size_list_to_set by done. rewrite length_app, !length_fmap. lia.
Qed.

(** X1.  After any sequence of calls on a freshly constructed queue the
    live entries are exactly the entries on the two lists, one for each
    value that is still queued: [pop] frees what [push] allocated, and a
    drained queue is the empty queue again. *)
Theorem no_entry_leaks fuel cs :
  fuel_bound cs ≤ fuel →
  ∃ q, run fuel cs empty_queue = Done ((fifo_run cs []).1, q) ∧
       size (entries q) = length (fifo_run cs []).2 ∧
       (∀ a, is_Some (entries q !! a) →
             reaches (entries q) (mPush q) a ∨ reaches (entries q) (mPop q) a) ∧
       ((fifo_run cs []).2 = [] → q = empty_queue).
Proof.
  intros Hfuel.
  destruct (run_counting_accounts fuel cs empty_queue [] [] empty_queue_accounts)
    as (n & q & lpush & lpop & Hrun & Hacc & Hs & _); [simpl; lia|].
  simpl in Hrun, Hs. rewrite reverse_nil in Hrun, Hs.
  exists q. rewrite run_counting_run, Hrun. split; [done|].
  split; [|split].
  - rewrite <- Hs, length_app, length_reverse. by apply accounts_size.
  - intros a Ha. destruct Hacc as [(Lpush & Lpop & _) Hdom].
    apply Hdom, elem_of_app in Ha as [Ha|Ha].
    + left. by apply (is_list_reaches _ _ _ _ Lpush).
    + right. by apply (is_list_reaches _ _ _ _ Lpop).
  - intros Hnil. rewrite Hnil in Hs. apply app_eq_nil in Hs as [Hpop Hpush].
    apply fmap_nil_inv in Hpop. apply (f_equal reverse) in Hpush.
    rewrite reverse_involutive in Hpush. apply fmap_nil_inv in Hpush. subst.
    destruct Hacc as [(Lpush & Lpop & _) Hdom]. destruct q as [h pu po].
    simpl in *. subst. unfold empty_queue. f_equal.
    apply map_empty. intros a. apply eq_None_not_Some. rewrite Hdom.
    apply not_elem_of_nil.
Qed.

(** X2.  The reversal work of [pop] is amortised: over any sequence of
    calls on a freshly constructed queue the loop of [pop] runs, in total,
    at most once per [push]. *)
Theorem reversal_is_amortised fuel cs :
  fuel_bound cs ≤ fuel →
  ∃ n q, run_counting fuel cs empty_queue = Done (((fifo_run cs []).1, n), q) ∧
         n ≤ pushes cs.
Proof.
  intros Hfuel.
  destruct (run_counting_accounts fuel cs empty_queue [] [] empty_queue_accounts)
    as (n & q & lpush & lpop & Hrun & _ & _ & Hn); [simpl; lia|].
  simpl in Hrun. rewrite reverse_nil in Hrun.
  exists n, q. split; [done|]. simpl in Hn. lia.
Qed.

(** X3.  Spurious failures of the weak compare-exchange do not show: in
    any state, [push] with fuel for its failed attempts ends with the new
    entry at the head of the push list, linked to the previous head, as if
    the first attempt had succeeded. *)
Theorem push_hides_spurious_failures fuel spurious v q :
  length spurious < fuel →
  push fuel spurious v q = push 1 [] v q ∧
  push fuel spurious v q
  = Done (tt, mkQueue (<[alloc (entries q) := mkEntry v (mPush q)]> (entries q))
                      (Some (alloc (entries q))) (mPop q)).
Proof.
  intros Hfuel. rewrite (push_spec 1 []) by (simpl; lia).
  by rewrite push_spec.
Qed.

(** X4.  With a live entry at the pop head, [pop] needs no loop: it returns
    that entry's value, frees that entry and no other, advances the pop
    head to its successor and leaves the push head and the push list as
    they are. *)
Theorem pop_from_pop_list fuel h pu p v next :
  h !! p = Some (mkEntry v next) →
  pop fuel (mkQueue h pu (Some p)) = Done (Some v, mkQueue (delete p h) pu next) ∧
  pop_counting fuel (mkQueue h pu (Some p))
  = Done ((Some v, 0), mkQueue (delete p h) pu next) ∧
  (∀ l, is_list h pu l → p ∉ l.*1 → is_list (delete p h) pu l).
Proof.
  intros Hp. split_and!.
  - unfold pop, bind. by rewrite (pop_counting_front fuel h pu p v next Hp).
  - by apply pop_counting_front.
  - intros l L Hni. by apply is_list_delete_ne.
Qed.

(** X5.  In a state that represents the queued values [s], [isEmpty]
    tells what the next [pop] does: it returns true exactly when [pop]
    returns the absent value, and such a [pop] leaves the state as it is;
    otherwise [pop] returns the oldest value. *)
Theorem isEmpty_predicts_pop fuel q s :
  models q s →
  length s ≤ fuel →
  ∃ r q',
    pop fuel q = Done (r, q') ∧
    r = head s ∧
    isEmpty q = Done (match r with None => true | Some _ => false end, q) ∧
    (r = None → q' = q).
Proof.
  intros (lpush & lpop & Hrepr & Hs) Hfuel.
  pose proof (models_length _ _ _ Hs).
  destruct (pop_repr fuel q lpush lpop Hrepr) as (q' & _ & _ & Hrun & _); [lia|].
  rewrite <- Hs in Hrun. exists (head s), q'. split; [done|]. split; [done|].
  rewrite isEmpty_spec. destruct Hrepr as (Lpush & Lpop & _).
  destruct q as [h pu po]. simpl in *.
  destruct lpop as [|[a v] lpop]; simpl in Lpop.
  - subst po. destruct lpush as [|[b w] lpush _] using rev_ind.
    + simpl in Lpush. subst pu s. simpl. split; [done|]. intros _.
      revert Hrun. unfold pop, bind. rewrite pop_counting_empty. by intros [= <-].
    + subst s. rewrite fmap_app, reverse_app. simpl.
      destruct lpush as [|[? ?] ?]; simpl in Lpush; destruct Lpush as [-> _]; done.
  - destruct Lpop as [-> _]. subst s. simpl. by rewrite andb_false_r.
Qed.

(** ** What one primitive changes *)





Lemma sum_list_with_insert {A} (f : A → nat) (l : list A) (i : nat) x y :
  l !! i = Some x →
  sum_list_with f (<[i := y]> l) + f x = sum_list_with f l + f y.
Proof.
  revert i. induction l as [|z l IH]; intros [|i]; simpl; try done.
  - intros [= ->]. lia.
  - intros Hi. specialize (IH i Hi). lia.
Qed.

(** ** The observations at any moment *)

(** X6.  At every moment of every interleaved execution the values the
    consumer has seen are pushed values, none seen twice, and those of each
    producer are an initial part of what that producer pushes, in its
    order. *)
Theorem observations_are_consistent vals target schedule :
  NoDup (concat vals) →
  ∃ c, exec target schedule (initial vals) = Done c ∧
       NoDup (observed c) ∧
       (∀ x, x ∈ observed c → x ∈ concat vals) ∧
       (∀ i l, vals !! i = Some l → filter (.∈ l) (observed c) `prefix_of` l).
Proof.
  intros ND.
  destruct (exec_inv vals target schedule (initial vals) ND (inv_initial vals))
    as (c & Hrun & lpush & own & pend & _ & Hperm & Hall).
  exists c. split; [done|]. rewrite <- !app_assoc in Hperm. split_and!.
  - rewrite <- Hperm in ND. by apply NoDup_app in ND as (ND & _).
  - intros x Hx. rewrite <- Hperm. apply elem_of_app. by left.
  - intros i l Hl.
    destruct (Forall2_lookup_l _ _ _ _ _ Hall Hl) as (p & Hp & Heq).
    rewrite filter_app, <- app_assoc in Heq. eexists. by rewrite Heq.
Qed.

(** ** Entries that are being pushed *)






(** ** Live entries in the interleaved executions *)




Lemma sum_list_with_zero {A} (f : A → nat) (l : list A) :
  Forall (λ x, f x = 0) l → sum_list_with f l = 0.
Proof. induction 1 as [|x l Hx _ IH]; simpl; [done|]. lia. Qed.



(** ** A thread that runs alone *)

Lemma exec_app target s1 : ∀ s2 c,
  exec target (s1 ++ s2) c
  = match exec target s1 c with
    | Done c1 => exec target s2 c1
    | Undefined => Undefined
    | OutOfFuel => OutOfFuel
    end.
Proof.
  induction s1 as [|t s1 IH]; intros s2 c; simpl; [done|].
  by destruct (step target t c).
Qed.

Lemma exec_cons target t schedule c :
  exec target (t :: schedule) c
  = match step target t c with
    | Done c1 => exec target schedule c1
    | Undefined => Undefined
    | OutOfFuel => OutOfFuel
    end.
Proof. done. Qed.

Lemma pop_left_step h pu po k m :
  pop_left h pu po k m →
  ∃ k' r h' pu' po',
    consumer_step k (mkQueue h pu po) = Done ((k', r), mkQueue h' pu' po') ∧
    ((m = 1 ∧ is_Some r ∧ k' = CCall) ∨
     (r = None ∧ ∃ m', m = S m' ∧ pop_left h' pu' po' k' m')).
Proof.
  intros Hleft.
  destruct Hleft as [p en Hpo Hp|lpush Hpo Lpush Hne|p en Hp|p en next Hp
                    |lpush Lpush Hne|g popped rem done Lrem Ldone ND
                    |g v n popped rem done Hg Lrem Ldone ND
                    |g v n popped rem done Hg Lrem Ldone ND
                    |g en popped Hg|e en He|e en v He]; simpl; unfold bind.
  - subst po. eexists _, _, _, _, _. split; [done|]. right. split; [done|].
    exists 4. split; [done|]. by econstructor.
  - subst po. eexists _, _, _, _, _. split; [done|]. right. split; [done|].
    exists (3 * length lpush + 2). split; [lia|]. by econstructor.
  - rewrite (load_mNext_live _ _ _ _ _ Hp).
    eexists _, _, _, _, _. split; [done|]. right. split; [done|].
    exists 3. split; [done|]. by econstructor.
  - eexists _, _, _, _, _. split; [done|]. right. split; [done|].
    exists 2. split; [done|]. by econstructor.
  - destruct lpush as [|[g v] lpush]; [done|]. pose proof Lpush as Lg.
    simpl in Lpush. destruct Lpush as [-> _]. simpl.
    eexists _, _, _, _, _. split; [done|]. right. split; [done|].
    exists (3 * length ((g, v) :: lpush) + 1). split; [simpl; lia|].
    apply (left_CTest _ _ _ g None ((g, v) :: lpush) []); [done..|].
    rewrite app_nil_r. by eapply is_list_NoDup.
  - destruct rem as [|[g' v] rem]; simpl in Lrem; [done|].
    destruct Lrem as [[= <-] (next & Hg & Lrem)].
    rewrite (load_mNext_live _ _ _ _ _ Hg). simpl.
    eexists _, _, _, _, _. split; [done|]. right. split; [done|].
    destruct next as [n|].
    + exists (3 * length rem + 3). split; [lia|]. by econstructor.
    + apply is_list_null in Lrem as ->. exists 3. split; [done|]. by econstructor.
  - rewrite (load_mNext_live _ _ _ _ _ Hg). simpl.
    eexists _, _, _, _, _. split; [done|]. right. split; [done|].
    exists (3 * length rem + 2). split; [lia|]. by econstructor.
  - rewrite (store_mNext_live _ _ _ _ _ _ Hg). simpl.
    apply NoDup_cons in ND as [Hg_ni ND].
    apply not_elem_of_app in Hg_ni as [Hg_rem Hg_done].
    eexists _, _, _, _, _. split; [done|]. right. split; [done|].
    exists (3 * length rem + 1). split; [lia|].
    apply (left_CTest _ _ _ n (Some g) rem ((g, v) :: done)).
    + by apply is_list_insert_ne.
    + simpl. split; [done|]. exists popped. rewrite lookup_insert_eq.
      split; [done|]. by apply is_list_insert_ne.
    + simpl. rewrite <- Permutation_middle. apply NoDup_cons.
      split; [|done]. by apply not_elem_of_app.
  - eexists _, _, _, _, _. split; [done|]. right. split; [done|].
    exists 2. split; [done|]. by econstructor.
  - rewrite (move_mValue_live _ _ _ _ _ He). simpl.
    eexists _, _, _, _, _. split; [done|]. right. split; [done|].
    exists 1. split; [done|]. by econstructor.
  - rewrite (delete_Entry_live _ _ _ _ _ He). simpl.
    eexists _, _, _, _, _. split; [done|]. left. eauto.
Qed.

Lemma pop_left_exists q k (ps : list producer) lpush own pend :
  shape_ok q k ps lpush own pend →
  pend ≠ [] ∨ lpush ≠ [] →
  ∃ m, pop_left (entries q) (mPush q) (mPop q) k m.
Proof.
  destruct q as [h pu po]. unfold shape_ok. simpl.
  intros (Lpush & Hcons & _ & ND) Hsome.
  apply NoDup_app in ND as (_ & _ & ND). apply NoDup_app in ND as (ND & _).
  destruct Hcons as [lpop Lpop|p lpop Hpo Lpop|p v next rest Hp Lrest|Hpo
                    |g popped rem done Hpo Lrem Ldone
                    |g v n popped rem done Hpo Hg Lrem Ldone
                    |g v n popped rem done Hpo Hg Lrem Ldone
                    |g v popped done Hpo Hg Ldone
                    |e v next lpop He Lpop|e v next lpop He Lpop].
  - destruct lpop as [|[p v] lpop]; simpl in Lpop.
    + destruct Hsome as [?|Hne]; [done|]. eexists. by eapply left_CCall_grab.
    + destruct Lpop as [-> (next & Hp & _)]. eexists. by eapply left_CCall_pop.
  - subst po. destruct lpop as [|[p' v] lpop]; simpl in Lpop; [done|].
    destruct Lpop as [[= <-] (next & Hp & _)]. eexists. by econstructor.
  - eexists. by econstructor.
  - destruct Hsome as [?|Hne]; [done|]. eexists. by econstructor.
  - eexists. by econstructor.
  - eexists. by econstructor.
  - eexists. by econstructor.
  - eexists. by econstructor.
  - eexists. by econstructor.
  - eexists. by econstructor.
Qed.

Lemma pop_alone target m : ∀ q ps k obs,
  pop_left (entries q) (mPush q) (mPop q) k m →
  length obs < target →
  ∃ c', exec target (replicate m Consumer) (mkConfig q ps k obs) = Done c' ∧
        length (observed c') = S (length obs) ∧
        producers c' = ps.
Proof.
  induction m as [|m IH]; intros q ps k obs Hleft Hlen.
  - inversion Hleft; lia.
  - destruct q as [h pu po]. simpl in Hleft.
    destruct (pop_left_step _ _ _ _ _ Hleft)
      as (k' & r & h' & pu' & po' & Hstep & Hcase).
    simpl. unfold step, consumer_finished. simpl.
    assert ((match k with
             | CCall => bool_decide (target ≤ length obs)
             | _ => false
             end) = false) as ->.
    { destruct k; try done. apply bool_decide_eq_false. lia. }
    rewrite Hstep.
    destruct Hcase as [(Hm & [v ->] & ->)|(-> & m' & Hm & Hleft')].
    + injection Hm as ->. simpl. eexists. split; [done|]. simpl.
      rewrite length_app. simpl. split; [lia|done].
    + injection Hm as ->. rewrite app_nil_r. by apply IH.
Qed.

Lemma producer_alone vals target c (i : nat) p :
  inv vals c →
  producers c !! i = Some p →
  todo p ≠ [] →
  ∃ c' p',
    step target (Producer i false) c = Done c' ∧
    producers c' = <[i := p']> (producers c) ∧
    observed c' = observed c ∧
    ((push_left (mPush (queue c)) p = 1 ∧ todo p' = tail (todo p)) ∨
     (todo p' = todo p ∧
      push_left (mPush (queue c)) p = S (push_left (mPush (queue c')) p'))).
Proof.
  intros (lpush & own & pend & (_ & _ & Hprods & _) & _) Hi Htodo.
  destruct c as [[h pu po] ps k obs]. simpl in *.
  eapply Forall_lookup in Hprods; [|exact Hi].
  unfold step. simpl. rewrite Hi.
  destruct p as [[|e|e prev|e prev] td]; unfold producer_step, producer_ok, push_left in *;
    simpl in *.
  - destruct td as [|v rest]; [done|]. unfold bind, new_Entry. simpl.
    eexists _, _. split; [done|]. simpl. split; [done|]. split; [done|]. right. done.
  - unfold bind, load_mPush. simpl.
    eexists _, _. split; [done|]. simpl. split; [done|]. split; [done|]. right.
    simpl. by rewrite decide_True.
  - destruct Hprods as (a & v & rest & next & -> & -> & Ha).
    unfold bind. rewrite (store_mNext_live _ _ _ _ _ _ Ha). simpl.
    eexists _, _. split; [done|]. simpl. split; [done|]. split; [done|]. right.
    simpl. split; [done|]. by destruct (decide (prev = pu)).
  - destruct Hprods as (a & v & rest & -> & -> & Ha).
    unfold bind, compare_exchange_weak. simpl.
    destruct (decide (pu = prev)) as [->|Hne]; simpl.
    + eexists _, _. split; [done|]. simpl. split; [done|]. split; [done|]. left.
      simpl. by rewrite decide_True.
    + eexists _, _. split; [done|]. simpl. split; [done|]. split; [done|]. right.
      simpl. split; [done|]. rewrite decide_False by done. by rewrite decide_True.
Qed.

Lemma push_left_pos pu p : 0 < push_left pu p.
Proof. unfold push_left. destruct (pc p); repeat case_decide; lia. Qed.

Lemma finish_push vals target n : ∀ c (i : nat) p,
  NoDup (concat vals) →
  inv vals c →
  producers c !! i = Some p →
  todo p ≠ [] →
  push_left (mPush (queue c)) p = n →
  ∃ c' p',
    exec target (replicate n (Producer i false)) c = Done c' ∧
    inv vals c' ∧
    observed c' = observed c ∧
    producers c' !! i = Some p' ∧
    length (todo p') < length (todo p) ∧
    sum_list_with (λ p, length (todo p)) (producers c')
    < sum_list_with (λ p, length (todo p)) (producers c).
Proof.
  induction n as [|n IH]; intros c i p ND Hinv Hi Htodo Hn.
  - pose proof (push_left_pos (mPush (queue c)) p). lia.
  - destruct (producer_alone vals target c i p Hinv Hi Htodo)
      as (c1 & p1 & Hstep & Hps & Hobs & Hcase).
    destruct (step_inv vals target (Producer i false) c ND Hinv) as (c1' & Hstep' & Hinv1).
    rewrite Hstep in Hstep'. injection Hstep' as <-.
    pose proof (sum_list_with_insert (λ p, length (todo p)) (producers c) i p p1 Hi)
      as Hsum. simpl in Hsum. rewrite <- Hps in Hsum.
    assert (producers c1 !! i = Some p1) as Hi1.
    { rewrite Hps. apply list_lookup_insert_eq. by eapply lookup_lt_Some. }
    rewrite replicate_S, exec_cons, Hstep.
    destruct Hcase as [[H1 Htl]|[Hsame Hleft]].
    + assert (n = 0) as -> by lia. simpl. exists c1, p1.
      assert (length (todo p1) < length (todo p)) as Hlt.
      { rewrite Htl. destruct (todo p); [done|]. simpl. lia. }
      split_and!; try done. lia.
    + destruct (IH c1 i p1 ND Hinv1 Hi1)
        as (c' & p' & Hrun & Hinv' & Hobs' & Hi' & Hlt' & Hlt).
      * by rewrite Hsame.
      * lia.
      * exists c', p'. rewrite Hsame in *. split_and!; try done; [congruence|lia].
Qed.

Lemma sum_list_with_pos {A} (f : A → nat) (l : list A) :
  sum_list_with f l ≠ 0 → ∃ (i : nat) x, l !! i = Some x ∧ f x ≠ 0.
Proof.
  induction l as [|x l IH]; simpl; [done|]. intros Hne.
  destruct (decide (f x = 0)) as [Hx|Hx].
  - destruct IH as (i & y & Hi & Hy); [lia|]. by exists (S i), y.
  - by exists 0, x.
Qed.

Lemma sum_list_with_zero_inv {A} (f : A → nat) (l : list A) :
  sum_list_with f l = 0 → Forall (λ x, f x = 0) l.
Proof.
  induction l as [|x l IH]; simpl; [constructor|]. intros Hsum.
  constructor; [lia|]. apply IH. lia.
Qed.

Lemma finish_producers vals target N : ∀ c,
  NoDup (concat vals) →
  inv vals c →
  sum_list_with (λ p, length (todo p)) (producers c) ≤ N →
  ∃ more c', exec target more c = Done c' ∧
             inv vals c' ∧
             observed c' = observed c ∧
             Forall (λ p, todo p = []) (producers c').
Proof.
  induction N as [|N IH]; intros c ND Hinv Hsum.
  - exists [], c. split_and!; try done.
    eapply Forall_impl;
      [apply (sum_list_with_zero_inv (λ p, length (todo p))); lia|].
    intros p Hp. simpl in Hp. by apply length_zero_iff_nil.
  - destruct (decide (sum_list_with (λ p, length (todo p)) (producers c) = 0))
      as [Hz|Hnz].
    + exists [], c. split_and!; try done.
      eapply Forall_impl;
        [by apply (sum_list_with_zero_inv (λ p, length (todo p)))|].
      intros p Hp. simpl in Hp. by apply length_zero_iff_nil.
    + destruct (sum_list_with_pos _ _ Hnz) as (i & p & Hi & Hp).
      destruct (finish_push vals target (push_left (mPush (queue c)) p) c i p ND Hinv Hi)
        as (c1 & p1 & Hrun1 & Hinv1 & Hobs1 & _ & _ & Hlt); [by destruct (todo p)|done|].
      destruct (IH c1 ND Hinv1) as (more & c' & Hrun & Hinv' & Hobs' & Hall); [lia|].
      eexists (_ ++ more), c'. rewrite exec_app, Hrun1.
      split_and!; try done. congruence.
Qed.

Lemma concat_nil_Forall {A B} (f : A → list B) (l : list A) :
  Forall (λ x, f x = []) l → concat (f <$> l) = [].
Proof. induction 1 as [|x l Hx _ IH]; simpl; [done|]. by rewrite Hx. Qed.

Lemma finish_consumer vals N : ∀ c,
  NoDup (concat vals) →
  inv vals c →
  Forall (λ p, todo p = []) (producers c) →
  length (concat vals) - length (observed c) ≤ N →
  ∃ more c', exec (length (concat vals)) more c = Done c' ∧
             length (observed c') = length (concat vals).
Proof.
  induction N as [|N IH]; intros c ND Hinv Hdone HN;
    pose proof Hinv as (lpush & own & pend & Hshape & Hperm & _);
    apply Permutation_length in Hperm; rewrite !length_app in Hperm;
    rewrite (concat_nil_Forall todo _ Hdone) in Hperm; simpl in Hperm.
  - exists [], c. split; [done|]. lia.
  - destruct (decide (length (observed c) = length (concat vals))) as [Heq|Hne].
    { by exists [], c. }
    destruct (pop_left_exists _ _ _ _ _ _ Hshape) as (m & Hleft).
    { destruct pend; [|by left]. right. destruct lpush; [|done].
      rewrite length_reverse, length_fmap in Hperm. simpl in Hperm. lia. }
    destruct c as [q ps k obs]. simpl in *.
    destruct (pop_alone (length (concat vals)) m q ps k obs Hleft)
      as (c1 & Hrun1 & Hobs1 & Hps1); [lia|].
    destruct (exec_inv vals (length (concat vals)) (replicate m Consumer) _ ND Hinv)
      as (c1' & Hrun1' & Hinv1).
    rewrite Hrun1 in Hrun1'. injection Hrun1' as <-.
    destruct (IH c1 ND Hinv1) as (more & c' & Hrun & Hlen); [by rewrite Hps1|lia|].
    eexists (_ ++ more), c'. by rewrite exec_app, Hrun1.
Qed.

(** * The claim about the interleaved executions *)

(** When the consumer has seen as many values as are pushed, it has seen
    each of them once, those of each producer in its order. *)
Lemma all_observed vals c :
  inv vals c →
  length (observed c) = length (concat vals) →
  observed c ≡ₚ concat vals ∧
  ∀ i l, vals !! i = Some l → filter (.∈ l) (observed c) = l.
Proof.
  intros (lpush & own & pend & _ & Hperm & Hall) Hlen.
  pose proof (Permutation_length Hperm) as Hlens.
  rewrite !length_app in Hlens.
  assert (pend ++ reverse lpush.*2 = [] ∧ concat (todo <$> producers c) = [])
    as [Hnil Htodo].
  { split; apply length_zero_iff_nil; rewrite ?length_app; lia. }
  rewrite Hnil, app_nil_r in Hperm, Hall. rewrite Htodo, app_nil_r in Hperm.
  split; [done|]. intros i l Hl.
  destruct (Forall2_lookup_l _ _ _ _ _ Hall Hl) as (p & Hp & Heq).
  rewrite (concat_nil_lookup (todo <$> producers c) i (todo p) Htodo) in Heq.
  - by rewrite app_nil_r in Heq.
  - by rewrite list_lookup_fmap, Hp.
Qed.

(** When every [push] has returned and the consumer, between two calls of
    [pop], faces two null heads, every pushed value has been seen. *)
Lemma nothing_in_flight vals c :
  inv vals c →
  Forall (λ p, todo p = []) (producers c) →
  the_consumer c = CCall →
  mPush (queue c) = None →
  mPop (queue c) = None →
  length (observed c) = length (concat vals).
Proof.
  intros (lpush & own & pend & (Hpush & Hcons & _ & _) & Hperm & _)
         Hdone Hk Hpu Hpo.
  rewrite Hpu in Hpush. rewrite Hk, Hpo in Hcons.
  assert (lpush = []) as ->.
  { destruct lpush as [|[a v] lpush]; [done|]. by destruct Hpush. }
  assert (pend = []) as ->.
  { inversion Hcons as [lpop Hlpop| | | | | | | | |]; subst.
    destruct lpop as [|[a v] lpop]; [done|]. by destruct Hlpop. }
  rewrite (concat_nil_Forall todo _ Hdone) in Hperm.
  apply Permutation_length in Hperm. rewrite !length_app in Hperm.
  simpl in Hperm. lia.
Qed.

(** C3.  Producers push pairwise distinct values concurrently, producer
    [i] the [K] values [vals !! i], and one consumer pops until it has seen
    [P * K] values.  Whatever the schedule of the threads' atomic steps:
    no step is undefined; once the consumer has seen [P * K] values these
    are the pushed values, each exactly once, and those of each producer
    appear in the order in which it pushed them; no value is lost, for
    when every [push] has returned and the consumer, between two calls of
    [pop], faces two null heads, it has seen [P * K] values; and the drain
    can always be completed, the execution going on to a state in which
    the consumer has seen [P * K] values, the pushed ones, each once and
    each producer's in its order. *)
Theorem concurrent_pops_lose_nothing vals P K schedule :
  length vals = P →
  Forall (λ l, length l = K) vals →
  NoDup (concat vals) →
  ∃ c, exec (P * K) schedule (initial vals) = Done c ∧
       (length (observed c) = P * K →
        observed c ≡ₚ concat vals ∧
        ∀ i l, vals !! i = Some l → filter (.∈ l) (observed c) = l) ∧
       (Forall (λ p, todo p = []) (producers c) →
        the_consumer c = CCall →
        mPush (queue c) = None →
        mPop (queue c) = None →
        length (observed c) = P * K) ∧
       ∃ more c',
         exec (P * K) (schedule ++ more) (initial vals) = Done c' ∧
         length (observed c') = P * K ∧
         observed c' ≡ₚ concat vals ∧
         ∀ i l, vals !! i = Some l → filter (.∈ l) (observed c') = l.
Proof.
  intros HP HK ND.
  assert (length (concat vals) = P * K) as Htotal.
  { by rewrite (length_concat_uniform vals K HK), HP. }
  rewrite <- Htotal.
  destruct (exec_inv vals (length (concat vals)) schedule (initial vals) ND
              (inv_initial vals)) as (c & Hrun & Hinv).
  exists c. split; [done|]. split; [by apply all_observed|].
  split; [by apply nothing_in_flight|].
  destruct (finish_producers vals (length (concat vals)) _ c ND Hinv (le_n _))
    as (more1 & c1 & Hrun1 & Hinv1 & _ & Hdone).
  destruct (finish_consumer vals _ c1 ND Hinv1 Hdone (le_n _))
    as (more2 & c2 & Hrun2 & Hlen).
  destruct (exec_inv vals (length (concat vals)) (schedule ++ more1 ++ more2)
              (initial vals) ND (inv_initial vals)) as (c' & Hrun' & Hinv').
  assert (c' = c2) as ->.
  { rewrite exec_app, Hrun, exec_app, Hrun1, Hrun2 in Hrun'. by injection Hrun'. }
  exists (more1 ++ more2), c2. split; [done|]. split; [done|].
  by apply all_observed.
Qed.

(** * Progress *)



End LocklessQueue.

(** * The claims at concrete inputs

    Values are natural numbers and [new] is [fresh_alloc]. *)

Lemma fresh_alloc_fresh {T} (h : gmap addr (@Entry T)) : h !! fresh_alloc h = None.
Proof. apply not_elem_of_dom, is_fresh. Qed.

Lemma pop_order_is_fifo_witness :
  (∃ q', run fresh_alloc 5 [Push [true] 1; Pop; IsEmpty; Pop] (@empty_queue nat)
         = Done ([Pushed; Popped (Some 1); Emptiness true; Popped None], q')) ∧
  (∃ q', run fresh_alloc 3 [Push [] 1; Push [] 2; Push [] 3; Pop; Pop; Pop]
           (@empty_queue nat)
         = Done ([Pushed; Pushed; Pushed;
                  Popped (Some 1); Popped (Some 2); Popped (Some 3)], q')) ∧
  (∃ q', run fresh_alloc 3 [Push [] 1; Push [] 2; Pop; Push [] 3; Pop; Pop]
           (@empty_queue nat)
         = Done ([Pushed; Pushed; Popped (Some 1);
                  Pushed; Popped (Some 2); Popped (Some 3)], q')).
Proof.
  destruct (pop_order_is_fifo (T:=nat) fresh_alloc fresh_alloc_fresh)
    as (Hgen & Hthree & Hrefill).
  split; [|split].
  - destruct (Hgen 5 [Push [true] 1; Pop; IsEmpty; Pop] empty_queue [])
      as (q' & Hrun & _); [apply empty_queue_models|simpl; lia|].
    exists q'. exact Hrun.
  - apply Hthree. lia.
  - apply Hrefill. lia.
Defined.

Lemma pop_with_empty_pop_list_witness :
  ∃ h' popped',
    pop 2 (mkQueue {[1%positive := mkEntry 20 (Some 2%positive);
                     2%positive := mkEntry 10 None]} (Some 1%positive) None)
    = Done (Some 10, mkQueue h' None popped') ∧
    is_list h' popped' [(1%positive, 20)].
Proof.
  destruct (pop_with_empty_pop_list (T:=nat) 2
              {[1%positive := mkEntry 20 (Some 2%positive);
                2%positive := mkEntry 10 None]}
              (Some 1%positive) [(1%positive, 20); (2%positive, 10)])
    as (h' & popped' & Hrun & Hlist & _).
  - simpl. split; [reflexivity|]. exists (Some 2%positive).
    split; [reflexivity|]. split; [reflexivity|]. exists None.
    split; reflexivity.
  - simpl. lia.
  - exists h', popped'. split; [exact Hrun|exact Hlist].
Defined.

Lemma push_and_pop_lists_disjoint_witness :
  ∃ rs q, run fresh_alloc 2 [Push [] 1; Push [true] 2; Pop; Push [] 3]
              (@empty_queue nat) = Done (rs, q) ∧
          disjoint_lists q.
Proof.
  eexists _, _. split; [vm_compute; reflexivity|].
  refine (proj1 (push_and_pop_lists_disjoint (T:=nat) fresh_alloc fresh_alloc_fresh 2
                   [Push [] 1; Push [true] 2; Pop; Push [] 3] _ _ _)).
  vm_compute. reflexivity.
Defined.

Lemma pop_terminates_witness :
  ∃ r n q',
    pop_counting 2 (mkQueue {[1%positive := mkEntry 20 (Some 2%positive);
                              2%positive := mkEntry 10 None]} (Some 1%positive) None)
    = Done ((r, n), q') ∧ n ≤ 2.
Proof.
  destruct (pop_terminates (T:=nat) 2
              {[1%positive := mkEntry 20 (Some 2%positive);
                2%positive := mkEntry 10 None]}
              (Some 1%positive) None [(1%positive, 20); (2%positive, 10)] [])
    as (r & n & q' & Hrun & _ & Hn).
  - simpl. split; [reflexivity|]. exists (Some 2%positive).
    split; [reflexivity|]. split; [reflexivity|]. exists None.
    split; reflexivity.
  - reflexivity.
  - simpl. lia.
  - exists r, n, q'. split; [exact Hrun|exact Hn].
Defined.

Lemma push_leaves_pop_list_witness :
  ∃ q', push fresh_alloc 2 [true] 7
          (mkQueue {[1%positive := mkEntry 10 None]} None (Some 1%positive))
        = Done (tt, q') ∧
        mPop q' = Some 1%positive ∧
        is_list (entries q') (mPop q') [(1%positive, 10)].
Proof.
  eexists. split; [vm_compute; reflexivity|].
  edestruct (push_leaves_pop_list (T:=nat) fresh_alloc fresh_alloc_fresh 2 [true] 7
               (mkQueue {[1%positive := mkEntry 10 None]} None (Some 1%positive)))
    as (Hpop & Hlist & _); [vm_compute; reflexivity|].
  split; [exact Hpop|]. apply Hlist. simpl. split; [reflexivity|].
  exists None. split; reflexivity.
Defined.

Lemma push_then_pop_roundtrip_witness :
  bind (push fresh_alloc 2 [true] 7) (λ _, pop 1) (@mkQueue nat ∅ None None)
  = Done (Some 7, mkQueue ∅ None None).
Proof.
  apply (push_then_pop_roundtrip (T:=nat) fresh_alloc fresh_alloc_fresh 2 1 [true] 7 ∅);
    simpl; lia.
Defined.

Lemma concurrent_pops_lose_nothing_witness :
  ∃ c, exec fresh_alloc (2 * 2)
         ([Producer 0 false; Producer 0 false; Producer 0 false; Producer 0 true]
          ++ concat (replicate 14 [Producer 0 false; Producer 1 true; Consumer;
                                   Producer 1 false; Consumer]))
         (initial [[1; 2]; [3; 4]]) = Done c ∧
       observed c = [1; 3; 2; 4] ∧
       observed c ≡ₚ [1; 2; 3; 4] ∧
       filter (.∈ [1; 2]) (observed c) = [1; 2] ∧
       filter (.∈ [3; 4]) (observed c) = [3; 4] ∧
       length (observed c) = 2 * 2.
Proof.
  destruct (concurrent_pops_lose_nothing (T:=nat) fresh_alloc fresh_alloc_fresh
              [[1; 2]; [3; 4]] 2 2
              ([Producer 0 false; Producer 0 false; Producer 0 false; Producer 0 true]
               ++ concat (replicate 14 [Producer 0 false; Producer 1 true; Consumer;
                                        Producer 1 false; Consumer])))
    as (c & Hrun & Hc & Hdrained & _).
  - reflexivity.
  - repeat constructor.
  - simpl. apply (bool_decide_unpack _). vm_compute. exact I.
  - exists c. split; [exact Hrun|].
    assert (observed c = [1; 3; 2; 4]) as Hobs.
    { revert Hrun. vm_compute. intros [= <-]. reflexivity. }
    split; [exact Hobs|].
    destruct Hc as (Hperm & Hord); [by rewrite Hobs|].
    split; [exact Hperm|].
    split; [exact (Hord 0 [1; 2] eq_refl)|].
    split; [exact (Hord 1 [3; 4] eq_refl)|].
    apply Hdrained; revert Hrun; vm_compute; intros [= <-];
      [repeat constructor|reflexivity..].
Defined.

(** ** The further properties at concrete inputs *)

Lemma no_entry_leaks_witness :
  ∃ q, run fresh_alloc 3 [Push [] 1; Push [true] 2; Pop; Pop] (@empty_queue nat)
       = Done ([Pushed; Pushed; Popped (Some 1); Popped (Some 2)], q) ∧
       size (entries q) = 0 ∧ q = empty_queue.
Proof.
  destruct (no_entry_leaks (T:=nat) fresh_alloc fresh_alloc_fresh 3
              [Push [] 1; Push [true] 2; Pop; Pop])
    as (q & Hrun & Hsize & _ & Hempty); [simpl; lia|].
  exists q. split; [exact Hrun|]. split; [exact Hsize|]. apply Hempty. reflexivity.
Defined.

Lemma reversal_is_amortised_witness :
  ∃ n q, run_counting fresh_alloc 4
           [Push [] 1; Push [] 2; Push [] 3; Pop; Push [] 4; Pop; Pop; Pop]
           (@empty_queue nat)
         = Done (([Pushed; Pushed; Pushed; Popped (Some 1); Pushed;
                   Popped (Some 2); Popped (Some 3); Popped (Some 4)], n), q) ∧
         n ≤ 4.
Proof.
  apply (reversal_is_amortised (T:=nat) fresh_alloc fresh_alloc_fresh 4
           [Push [] 1; Push [] 2; Push [] 3; Pop; Push [] 4; Pop; Pop; Pop]).
  simpl. lia.
Defined.

Lemma push_hides_spurious_failures_witness :
  push fresh_alloc 3 [true; true] 7 (@empty_queue nat)
  = push fresh_alloc 1 [] 7 (@empty_queue nat).
Proof.
  apply (push_hides_spurious_failures (T:=nat) fresh_alloc 3 [true; true] 7 empty_queue).
  simpl. lia.
Defined.

Lemma pop_from_pop_list_witness :
  pop 0 (mkQueue {[1%positive := mkEntry 10 (Some 2%positive);
                   2%positive := mkEntry 20 None]} (Some 3%positive) (Some 1%positive))
  = Done (Some 10,
          mkQueue (delete 1%positive {[1%positive := mkEntry 10 (Some 2%positive);
                                       2%positive := mkEntry 20 None]})
                  (Some 3%positive) (Some 2%positive)).
Proof.
  apply (pop_from_pop_list (T:=nat) 0). reflexivity.
Defined.

Lemma isEmpty_predicts_pop_witness :
  ∃ r q', pop 1 (mkQueue {[1%positive := mkEntry 10 None]} (Some 1%positive) None)
          = Done (r, q') ∧ r = Some 10.
Proof.
  destruct (isEmpty_predicts_pop (T:=nat) 1
              (mkQueue {[1%positive := mkEntry 10 None]} (Some 1%positive) None) [10])
    as (r & q' & Hrun & Hr & _).
  - exists [(1%positive, 10)], []. split; [|reflexivity].
    split; [|split]; simpl.
    + split; [reflexivity|]. exists None. split; reflexivity.
    + reflexivity.
    + repeat constructor. apply not_elem_of_nil.
  - simpl. lia.
  - exists r, q'. split; [exact Hrun|exact Hr].
Defined.

Lemma observations_are_consistent_witness :
  ∃ c, exec fresh_alloc 4
         (concat (replicate 9 [Producer 0 false; Producer 1 true; Consumer;
                               Producer 1 false; Consumer]))
         (initial [[1; 2]; [3; 4]]) = Done c ∧
       filter (.∈ [1; 2]) (observed c) `prefix_of` [1; 2].
Proof.
  destruct (observations_are_consistent (T:=nat) fresh_alloc fresh_alloc_fresh
              [[1; 2]; [3; 4]] 4
              (concat (replicate 9 [Producer 0 false; Producer 1 true; Consumer;
                                    Producer 1 false; Consumer])))
    as (c & Hrun & _ & _ & Hpre).
  - simpl. apply (bool_decide_unpack _). vm_compute. exact I.
  - exists c. split; [exact Hrun|]. exact (Hpre 0 [1; 2] eq_refl).
Defined.





End Queue.

(** * The claim about TestCounter *)

Section TestCounter.

Import Counter.
Local Open Scope Z_scope.

Lemma wrap32_in_range z : int32_min ≤ z ≤ int32_max → wrap32 z = z.
Proof.
  unfold wrap32, int32_min, int32_max. intros Hz.
  rewrite Z.mod_small by lia. lia.
Qed.

Lemma increments_in_range (n : nat) : ∀ init,
  int32_min ≤ init →
  init + Z.of_nat n ≤ int32_max →
  get (Nat.iter n increment (new init)) = init + Z.of_nat n.
Proof.
  induction n as [|n IH]; intros init Hlo Hhi.
  - simpl. unfold get, new. simpl. lia.
  - simpl. unfold get, increment. simpl. fold (get (Nat.iter n increment (new init))).
    rewrite IH by lia. rewrite wrap32_in_range by lia. lia.
Qed.

(** C10, as the code has it.  A counter constructed with [init] (0 by
    default) reports [init]; after [n] calls of [increment], as long as
    [init + n] does not exceed the largest [int32_t], it reports
    [init + n], each call having added exactly one. *)
Theorem TestCounter_counts (init : Z) (n : nat) :
  int32_min ≤ init →
  init + Z.of_nat n ≤ int32_max →
  get new_default = 0 ∧
  get (new init) = init ∧
  get (Nat.iter n increment (new init)) = init + Z.of_nat n ∧
  (∀ k, (k < n)%nat →
        get (increment (Nat.iter k increment (new init)))
        = get (Nat.iter k increment (new init)) + 1).
Proof.
  intros Hlo Hhi. split_and!; try done.
  - by apply increments_in_range.
  - intros k Hk. change (increment (Nat.iter k increment (new init)))
      with (Nat.iter (S k) increment (new init)).
    rewrite !increments_in_range by lia. lia.
Qed.

Lemma TestCounter_counts_witness :
  get (Nat.iter 3 increment (new 5)) = 5 + Z.of_nat 3.
Proof.
  apply (TestCounter_counts 5 3); unfold int32_min, int32_max; simpl; lia.
Defined.

(** C10 as stated fails at the largest [int32_t]: one more [increment]
    does not report [init + 1], which no [int32_t] can hold. *)
Lemma TestCounter_overflow :
  int32_min ≤ 2147483647 ≤ int32_max ∧
  get (Nat.iter 1 increment (new 2147483647)) ≠ 2147483647 + Z.of_nat 1.
Proof. split; [split; discriminate|]. vm_compute. discriminate. Qed.

(** * Further properties of the test utilities *)

(** X11.  Callbacks made by [createCountingCallback] count into the
    variables they point to: called one after the other, each variable
    grows by the number of callbacks made for it, callbacks made for the
    same variable share it, and every other variable keeps its value
    (while no [int32_t] overflows). *)
Theorem counting_callbacks_add_up (addrs : list positive) : ∀ mem,
  (∀ a, a ∈ addrs →
        ∃ z, mem !! a = Some z ∧ int32_min ≤ z ∧
             z + Z.of_nat (length (filter (a =.) addrs)) ≤ int32_max) →
  ∃ mem',
    call_all (createCountingCallback <$> (Some <$> addrs)) mem = Done mem' ∧
    ∀ b, mem' !! b
         = (λ z, z + Z.of_nat (length (filter (b =.) addrs))) <$> mem !! b.
Proof.
  induction addrs as [|a addrs IH]; intros mem Hlive.
  - exists mem. split; [done|]. intros b. destruct (mem !! b); simpl; [|done].
    f_equal. lia.
  - destruct (Hlive a) as (z & Ha & Hlo & Hhi); [left|].
    rewrite filter_cons_True in Hhi by done. simpl in Hhi.
    simpl. unfold createCountingCallback at 1. rewrite Ha.
    rewrite wrap32_in_range by lia.
    destruct (IH (<[a := z + 1]> mem)) as (mem' & Hrun & Hmem').
    { intros b Hb. destruct (decide (a = b)) as [<-|Hne].
      - exists (z + 1). rewrite lookup_insert_eq. split; [done|]. lia.
      - destruct (Hlive b) as (zb & Hzb & Hlob & Hhib); [by right|].
        rewrite filter_cons_False in Hhib by congruence.
        exists zb. by rewrite lookup_insert_ne. }
    exists mem'. split; [done|]. intros b. rewrite Hmem'.
    destruct (decide (a = b)) as [<-|Hne].
    + rewrite lookup_insert_eq, Ha, filter_cons_True by done. simpl. f_equal. lia.
    + by rewrite lookup_insert_ne, filter_cons_False by congruence.
Qed.

Lemma counting_callbacks_add_up_witness :
  ∃ mem',
    call_all (createCountingCallback <$> (Some <$> [1; 2; 1]%positive))
             {[1%positive := 5; 2%positive := 2147483646; 3%positive := 9]}
    = Done mem' ∧
    mem' !! 1%positive = Some 7 ∧ mem' !! 2%positive = Some 2147483647 ∧
    mem' !! 3%positive = Some 9.
Proof.
  destruct (counting_callbacks_add_up [1; 2; 1]%positive
              {[1%positive := 5; 2%positive := 2147483646; 3%positive := 9]})
    as (mem' & Hrun & Hmem').
  - intros a Ha. apply elem_of_cons in Ha as [->|Ha].
    { exists 5. vm_compute. repeat split; discriminate. }
    apply elem_of_cons in Ha as [->|Ha].
    { exists 2147483646. vm_compute. repeat split; discriminate. }
    apply list_elem_of_singleton in Ha as ->.
    exists 5. vm_compute. repeat split; discriminate.
  - exists mem'. split; [exact Hrun|]. rewrite !Hmem'. repeat split.
Defined.

(** ** The counter shared by threads *)

Lemma pending_le_sum (ts : list incrementer) (i : nat) t :
  ts !! i = Some t → (pending t ≤ sum_list_with pending ts)%nat.
Proof. intros Hi. apply sum_list_with_in. by eapply list_elem_of_lookup_2. Qed.

Lemma pending_insert (ts : list incrementer) (i : nat) t y :
  ts !! i = Some t →
  Z.of_nat (sum_list_with pending (<[i := y]> ts))
  = Z.of_nat (sum_list_with pending ts) - Z.of_nat (pending t) + Z.of_nat (pending y).
Proof. intros Hi. pose proof (Queue.sum_list_with_insert pending ts i t y Hi). lia. Qed.

Lemma inc_step_ok lo final count fired i t s :
  int32_min ≤ lo →
  final ≤ int32_max →
  sys_inv final count fired s →
  lo ≤ mCount (counter s) →
  incs s !! i = Some t →
  ∃ s', inc_step i t s = Done s' ∧
        sys_inv final count fired s' ∧
        mCount (counter s) ≤ mCount (counter s').
Proof.
  intros Hlo Hhi (Hsum & Hth & Hw) Hge Hi.
  destruct s as [c h ts w]. simpl in *.
  pose proof (Hth i t Hi) as Hti.
  pose proof (pending_le_sum ts i t Hi) as Hle.
  destruct t as [pcv k]. unfold inc_step, set_inc. simpl in *.
  destruct pcv as [| |tmp| |].
  - (* lock_guard: lock *)
    destruct k as [|k]; [exists (mkSystem c h ts w); by repeat split|].
    destruct h as [j|]; [exists (mkSystem c (Some j) ts w); by repeat split|].
    eexists. split; [done|]. split; [|simpl; lia]. split_and!; simpl.
    + rewrite (pending_insert ts i _ _ Hi). cbn [pending ipc calls Init.Nat.pred] in *. lia.
    + intros j tj Hj.
      apply list_lookup_insert_Some in Hj as [(<- & <- & _)|(Hne & Hj)]; simpl.
      * split; [done|lia].
      * specialize (Hth j tj Hj). destruct (ipc tj); intuition congruence.
    + destruct w as [| | |[|]| |r|r]; intuition congruence.
  - (* load of mCount *)
    eexists. split; [done|]. split; [|simpl; lia]. split_and!; simpl.
    + rewrite (pending_insert ts i _ _ Hi). cbn [pending ipc calls Init.Nat.pred] in *. lia.
    + intros j tj Hj.
      apply list_lookup_insert_Some in Hj as [(<- & <- & _)|(Hne & Hj)]; simpl.
      * intuition.
      * by apply Hth.
    + done.
  - (* store of mCount *)
    destruct Hti as (Hh & Hk & ->). cbn [pending ipc calls] in Hle.
    assert (wrap32 (mCount c + 1) = mCount c + 1) as Hwrap.
    { apply wrap32_in_range. lia. }
    eexists. split; [done|]. simpl. rewrite Hwrap. split; [|lia].
    split_and!; simpl.
    + rewrite (pending_insert ts i _ _ Hi). cbn [pending ipc calls Init.Nat.pred] in *. lia.
    + intros j tj Hj.
      apply list_lookup_insert_Some in Hj as [(<- & <- & _)|(Hne & Hj)]; simpl.
      * done.
      * specialize (Hth j tj Hj). destruct (ipc tj); try done.
        destruct Hth as (Hh' & _). congruence.
    + destruct w as [| | |[|]| |r|r]; try done; try (intuition congruence).
      destruct r; [lia|done].
  - (* lock_guard: unlock *)
    destruct Hti as (-> & Hk). rewrite decide_True by done.
    eexists. split; [done|]. split; [|simpl; lia]. split_and!; simpl.
    + rewrite (pending_insert ts i _ _ Hi). cbn [pending ipc calls Init.Nat.pred] in *. lia.
    + intros j tj Hj.
      apply list_lookup_insert_Some in Hj as [(<- & <- & _)|(Hne & Hj)]; simpl.
      * done.
      * specialize (Hth j tj Hj). destruct (ipc tj); try done;
          destruct Hth as (Hh' & _); congruence.
    + destruct w as [| | |[|]| |r|r]; try done; intuition congruence.
  - (* notify_all *)
    eexists. split; [done|]. split; [|simpl; lia]. split_and!; simpl.
    + rewrite (pending_insert ts i _ _ Hi). cbn [pending ipc calls Init.Nat.pred] in *. lia.
    + intros j tj Hj.
      apply list_lookup_insert_Some in Hj as [(<- & <- & _)|(Hne & Hj)]; simpl.
      * done.
      * by apply Hth.
    + done.
Qed.

Lemma wait_step_ok final count fired s :
  sys_inv final count fired s →
  ∃ s', wait_step count s = Done s' ∧
        sys_inv final count fired s' ∧
        counter s' = counter s.
Proof.
  intros (Hsum & Hth & Hw). destruct s as [c h ts w]. unfold wait_step. simpl in *.
  destruct w as [| | |b| |r|r].
  - destruct h as [j|]; [exists (mkSystem c (Some j) ts WLock); by repeat split|].
    eexists. split; [done|]. split; [|done]. split_and!; simpl; try done.
    intros j tj Hj. specialize (Hth j tj Hj). destruct (ipc tj); intuition congruence.
  - subst h. destruct (decide (count ≤ mCount c)).
    + eexists. split; [done|]. split; [|done]. by split_and!.
    + eexists. split; [done|]. split; [|done]. split_and!; simpl; try done.
      intros j tj Hj. specialize (Hth j tj Hj). destruct (ipc tj); intuition congruence.
  - eexists. split; [done|]. split; [|done]. by split_and!.
  - destruct h as [j|]; [exists (mkSystem c (Some j) ts (WRelock b)); by repeat split|].
    eexists. split; [done|]. split; [|done]. split_and!; simpl; try done.
    + intros j tj Hj. specialize (Hth j tj Hj). destruct (ipc tj); intuition congruence.
    + by destruct b.
  - destruct Hw as [Hh Hf]. eexists. split; [done|]. split; [|done].
    split_and!; simpl; try done. case_bool_decide; done.
  - destruct Hw as [-> Hr]. eexists. split; [done|]. split; [|done].
    split_and!; simpl; try done.
    intros j tj Hj. specialize (Hth j tj Hj). destruct (ipc tj); intuition congruence.
  - exists (mkSystem c h ts (WReturned r)). by repeat split.
Qed.

Lemma sys_inv_fired final count fired s :
  sys_inv final count fired s → sys_inv final count true s.
Proof.
  intros (Hsum & Hth & Hw). split_and!; try done.
  destruct (waiter s) as [| | |[|]| |[|]|[|]]; intuition.
Qed.

Lemma sys_step_ok lo final count fired e s :
  int32_min ≤ lo →
  final ≤ int32_max →
  sys_inv final count fired s →
  lo ≤ mCount (counter s) →
  ∃ s', sys_step count e s = Done s' ∧
        sys_inv final count (fired || is_timeout e) s' ∧
        mCount (counter s) ≤ mCount (counter s').
Proof.
  intros Hlo Hhi Hinv Hge. destruct e as [[i|]|]; simpl.
  - rewrite orb_false_r. destruct (incs s !! i) as [t|] eqn:Hi.
    + by eapply inc_step_ok.
    + exists s. split; [done|]. split; [done|lia].
  - rewrite orb_false_r. destruct (wait_step_ok final count fired s Hinv)
      as (s' & Hrun & Hinv' & Hc).
    exists s'. rewrite Hc. split; [done|]. split; [done|lia].
  - rewrite orb_true_r. exists (timeout_step s). split; [done|].
    apply sys_inv_fired in Hinv. destruct Hinv as (Hsum & Hth & Hw).
    unfold timeout_step. destruct (waiter s) eqn:Hwt; simpl;
      (split; [|lia]); split_and!; simpl; try done; by rewrite ?Hwt.
Qed.

Lemma sys_exec_ok lo final count es : ∀ fired s,
  int32_min ≤ lo →
  final ≤ int32_max →
  sys_inv final count fired s →
  lo ≤ mCount (counter s) →
  ∃ s', sys_exec count es s = Done s' ∧
        sys_inv final count (fired || existsb is_timeout es) s' ∧
        lo ≤ mCount (counter s').
Proof.
  induction es as [|e es IH]; intros fired s Hlo Hhi Hinv Hge; simpl.
  - rewrite orb_false_r. eauto.
  - destruct (sys_step_ok lo final count fired e s Hlo Hhi Hinv Hge)
      as (s1 & -> & Hinv1 & Hmono).
    destruct (IH (fired || is_timeout e) s1 Hlo Hhi Hinv1) as (s' & Hrun & Hinv' & Hge');
      [lia|].
    exists s'. split; [done|]. by rewrite orb_assoc.
Qed.

Lemma sys_initial_inv init count ks :
  sys_inv (init + Z.of_nat (sum_list ks)) count false (sys_initial init ks).
Proof.
  unfold sys_inv, sys_initial. simpl. split_and!; try done.
  - do 2 f_equal. induction ks as [|k ks IH]; simpl; [done|].
    unfold pending at 1. simpl. unfold fmap in *. by rewrite IH.
  - intros i t Hi. apply list_lookup_fmap_Some in Hi as (k & -> & _). done.
Qed.

(** X12.  A [TestCounter] shared by threads loses no update: for every
    schedule of the threads' steps, of wake-ups and timeouts of a thread
    in [tryWaitUntilCountIsAtLeast], no step is undefined, the count stays
    between its initial value and that value plus the number of calls of
    [increment], and when all these calls have returned it is exactly the
    latter (while no [int32_t] overflows). *)
Theorem shared_counter_loses_no_update init count ks es :
  int32_min ≤ init →
  init + Z.of_nat (sum_list ks) ≤ int32_max →
  ∃ s, sys_exec count es (sys_initial init ks) = Done s ∧
       init ≤ get (counter s) ≤ init + Z.of_nat (sum_list ks) ∧
       (Forall (λ t, calls t = O) (incs s) →
        get (counter s) = init + Z.of_nat (sum_list ks)).
Proof.
  intros Hlo Hhi.
  destruct (sys_exec_ok init (init + Z.of_nat (sum_list ks)) count es false
              (sys_initial init ks) Hlo Hhi (sys_initial_inv init count ks))
    as (s & Hrun & (Hsum & Hth & _) & Hge); [simpl; lia|].
  exists s. split; [done|]. unfold get. split; [lia|].
  intros Hdone. rewrite (Queue.sum_list_with_zero pending) in Hsum; [lia|].
  eapply Forall_impl; [exact Hdone|]. intros t Ht. unfold pending.
  rewrite Ht. by destruct (ipc t).
Qed.

(** X13.  [tryWaitUntilCountIsAtLeast] keeps its contract under every
    schedule: when the wait ends with its condition met, the count is at
    least the awaited value, then and ever after; when it ends otherwise,
    the timeout has fired; and waiting never changes the count. *)
Theorem wait_ends_on_count_or_timeout init count ks es :
  int32_min ≤ init →
  init + Z.of_nat (sum_list ks) ≤ int32_max →
  ∃ s, sys_exec count es (sys_initial init ks) = Done s ∧
       (waiter s = WReturned true → count ≤ get (counter s)) ∧
       (waiter s = WReturned false → Timeout ∈ es) ∧
       (∀ s', wait_step count s = Done s' → counter s' = counter s).
Proof.
  intros Hlo Hhi.
  destruct (sys_exec_ok init (init + Z.of_nat (sum_list ks)) count es false
              (sys_initial init ks) Hlo Hhi (sys_initial_inv init count ks))
    as (s & Hrun & Hinv & Hge); [simpl; lia|].
  exists s. split; [done|]. split_and!.
  - intros Hw. destruct Hinv as (_ & _ & Hwait). by rewrite Hw in Hwait.
  - intros Hw. destruct Hinv as (_ & _ & Hwait). rewrite Hw in Hwait. simpl in Hwait.
    apply existsb_exists in Hwait as (e & Hin & He).
    destruct e; [done|]. by apply list_elem_of_In.
  - intros s' Hs'. destruct (wait_step_ok _ _ _ s Hinv) as (s1 & Hrun1 & _ & Hc).
    rewrite Hrun1 in Hs'. by injection Hs' as <-.
Qed.

Lemma shared_counter_loses_no_update_witness :
  ∃ s, sys_exec 7 (concat (replicate 16 [Run (Inc 0); Run (Inc 1); Run Waiter; Timeout]))
                (sys_initial 5 [2; 1]%nat) = Done s ∧
       get (counter s) = 8.
Proof.
  destruct (shared_counter_loses_no_update 5 7 [2; 1]%nat
              (concat (replicate 16 [Run (Inc 0); Run (Inc 1); Run Waiter; Timeout])))
    as (s & Hrun & _ & Hfinal).
  - vm_compute. discriminate.
  - vm_compute. discriminate.
  - exists s. split; [exact Hrun|]. apply Hfinal.
    revert Hrun. vm_compute. intros [= <-]. repeat constructor.
Defined.

Lemma wait_ends_on_count_or_timeout_witness :
  ∃ s, sys_exec 6 (replicate 6 (Run (Inc 0)) ++ replicate 4 (Run Waiter))
                (sys_initial 5 [1]%nat) = Done s ∧
       waiter s = WReturned true ∧ 6 ≤ get (counter s).
Proof.
  destruct (wait_ends_on_count_or_timeout 5 6 [1]%nat
              (replicate 6 (Run (Inc 0)) ++ replicate 4 (Run Waiter)))
    as (s & Hrun & Hmet & _).
  - vm_compute. discriminate.
  - vm_compute. discriminate.
  - assert (waiter s = WReturned true) as Hw.
    { revert Hrun. vm_compute. intros [= <-]. reflexivity. }
    exists s. split; [exact Hrun|]. split; [exact Hw|exact (Hmet Hw)].
Defined.

End TestCounter.
